(** * Breadth-first generation of MIU theorems: a shallow embedding of
      [generator.py] and the properties of the tree it builds. *)

From Stdlib Require Import ZArith Lia Ascii.
From stdpp Require Import base gmap sets list strings sorting pretty.

Local Open Scope string_scope.
Local Open Scope list_scope.
Local Open Scope Z_scope.

(** ** Python [str] operations used by the rules *)

Module PyStr.

(** [s[n:]] for a non-negative [n]. *)
Fixpoint slice_from (n : nat) (s : string) : string :=
  match n, s with
  | O, _ => s
  | S _, EmptyString => EmptyString
  | S n', String _ s' => slice_from n' s'
  end.

(** [s.startswith(p)]. *)
Definition startswith (p s : string) : bool := String.prefix p s.

(** [s.endswith(p)]: the last [len(p)] characters of [s] are [p]. *)
Definition endswith (p s : string) : bool :=
  (String.length p <=? String.length s)%nat
  && String.eqb (slice_from (String.length s - String.length p) s) p.

(** [sub in s]: [sub] occurs at some position of [s]. *)
Fixpoint contains (sub s : string) : bool :=
  if String.prefix sub s then true
  else match s with
       | EmptyString => false
       | String _ s' => contains sub s'
       end.

(** [s.replace(old, new, 1)]: the leftmost occurrence of [old] is replaced,
    a string without occurrence is returned as it is. *)
Fixpoint replace_first (old new s : string) : string :=
  if String.prefix old s then new +:+ slice_from (String.length old) s
  else match s with
       | EmptyString => EmptyString
       | String c s' => String c (replace_first old new s')
       end.

End PyStr.

(** ** The rule set *)

Definition rule : Type := string → option string.

Definition AXIOM : string := "MI".

(** If you possess a string whose last letter is I, add U to the end. *)
Definition rule_0 (theorem : string) : option string :=
  if PyStr.endswith "I" theorem then Some (theorem +:+ "U") else None.

(** If you have Mx, generate Mxx. *)
Definition rule_1 (theorem : string) : option string :=
  if PyStr.startswith "M" theorem
  then Some (theorem +:+ PyStr.slice_from 1 theorem) else None.

(** Replace first occurrence of III with U. *)
Definition rule_2 (theorem : string) : option string :=
  if PyStr.contains "III" theorem
  then Some (PyStr.replace_first "III" "U" theorem) else None.

(** Remove first occurrence of UU. *)
Definition rule_3 (theorem : string) : option string :=
  if PyStr.contains "UU" theorem
  then Some (PyStr.replace_first "UU" "" theorem) else None.

Definition RULES : list rule := [rule_0; rule_1; rule_2; rule_3].

(** ** Theorem nodes and the object store

    A [TheoremNode] object is a cell of the store; a reference to a node is
    its index.  Objects are never freed, and a new object takes the next
    free index. *)

Abbreviation ref := nat (only parsing).

Record TheoremNode : Type := mkNode {
  theorem : string;
  level : Z;
  parent : option ref;
  children : list ref
}.

Abbreviation store := (list TheoremNode) (only parsing).

(** [TheoremNode(theorem, level)]: the constructor leaves [parent] at its
    default [None] and starts with no children. *)
Definition new_node (theorem : string) (level : Z) : TheoremNode :=
  mkNode theorem level None [].

Definition alloc (nd : TheoremNode) (h : store) : ref * store :=
  (length h, h ++ [nd]).

Definition append_child (c : ref) (nd : TheoremNode) : TheoremNode :=
  mkNode (theorem nd) (level nd) (parent nd) (children nd ++ [c]).

Definition set_parent (p : ref) (nd : TheoremNode) : TheoremNode :=
  mkNode (theorem nd) (level nd) (Some p) (children nd).

(** [self.add_child(child)]: append to [self.children], then set
    [child.parent = self]. *)
Definition add_child (self child : ref) (h : store) : store :=
  alter (set_parent self) child (alter (append_child child) self h).

Definition is_leaf (self : ref) (h : store) : bool :=
  match h !! self with
  | Some nd => bool_decide (length (children nd) = 0%nat)
  | None => true
  end.

(** [get_path_to_root]: the [while current:] loop walks the parent links and
    collects the theorems, the result is the reversed collection.  The loop
    is bounded by [fuel]; [None] means the bound was reached. *)
Fixpoint walk_up (fuel : nat) (h : store) (current : option ref)
    (path : list string) : option (list string) :=
  match current with
  | None => Some path
  | Some c =>
    match fuel with
    | O => None
    | S fuel' =>
      match h !! c with
      | Some nd => walk_up fuel' h (parent nd) (path ++ [theorem nd])
      | None => None
      end
    end
  end.

Definition get_path_to_root_fuel (fuel : nat) (h : store) (self : ref)
    : option (list string) :=
  reverse <$> walk_up fuel h (Some self) [].

(** A chain of parent links that ends visits every object at most once, so
    the size of the store bounds the walk. *)
Definition get_path_to_root (h : store) (self : ref) : option (list string) :=
  get_path_to_root_fuel (length h) h self.

(** ** The derivation engine *)

Record state : Type := mkState {
  heap : store;
  seen_theorems : gset string;
  queue : list (ref * Z)
}.

(** One pass of the body of [for rule in rules] for the node [current_node]
    popped at [current_level]. *)
Definition apply_rule (current_node : ref) (current_level : Z)
    (st : state) (r : rule) : state :=
  match heap st !! current_node with
  | None => st
  | Some cur =>
    match r (theorem cur) with
    | None => st
    | Some new_theorem =>
      if decide (new_theorem ∈ seen_theorems st) then st
      else
        let '(child_node, h1) :=
          alloc (new_node new_theorem (current_level + 1)) (heap st) in
        let h2 := add_child current_node child_node h1 in
        mkState h2
                ({[new_theorem]} ∪ seen_theorems st)
                (queue st ++ [(child_node, current_level + 1)])
    end
  end.

Definition expand (rules : list rule) (current_node : ref)
    (current_level : Z) (st : state) : state :=
  foldl (apply_rule current_node current_level) st rules.

(** One iteration of [while queue and queue[0][1] < max_level]; [None] when
    the loop condition is false. *)
Definition step (rules : list rule) (max_level : Z) (st : state)
    : option state :=
  match queue st with
  | [] => None
  | (current_node, current_level) :: rest =>
    if decide (current_level < max_level)
    then Some (expand rules current_node current_level
                 (mkState (heap st) (seen_theorems st) rest))
    else None
  end.

(** The [while] loop, run for at most [fuel] iterations. *)
Fixpoint bfs_loop (fuel : nat) (rules : list rule) (max_level : Z)
    (st : state) : state :=
  match fuel with
  | O => st
  | S fuel' =>
    match step rules max_level st with
    | None => st
    | Some st' => bfs_loop fuel' rules max_level st'
    end
  end.

(** The state before the loop: the root object, the seen set holding the
    axiom, the queue holding the root at level 0. *)
Definition init_state (axiom : string) : state :=
  let '(root, h) := alloc (new_node axiom 0) [] in
  mkState h {[axiom]} [(root, 0)].

(** A node popped [d] levels below the bound pushes at most one node per
    rule, each one level up: [iterations_bound r d] bounds the number of
    iterations that a queue entry [d] levels below the bound can cause. *)
Fixpoint iterations_bound (r : nat) (d : nat) : nat :=
  match d with
  | O => O
  | S d' => S (r * iterations_bound r d')
  end.

Definition weight (r : nat) (max_level : Z) (l : Z) : nat :=
  iterations_bound r (Z.to_nat (max_level - l)).

Definition queue_weight (r : nat) (max_level : Z) (q : list (ref * Z)) : nat :=
  foldr (λ e acc, (weight r max_level e.2 + acc)%nat) O q.

(** The state in which the loop is left ([loop_exits] below shows that the
    loop condition is false there). *)
Definition final_state (axiom : string) (rules : list rule) (max_level : Z)
    : state :=
  bfs_loop (weight (length rules) max_level 0) rules max_level
           (init_state axiom).

(** A tree: the store and the reference of its root. *)
Record tree : Type := mkTree {
  nodes : store;
  root : ref
}.

(** What a call does: it returns a value or raises. *)
Inductive outcome (A : Type) : Type :=
| Returned (a : A)
| Raised (exn : string).
Arguments Returned {A} a.
Arguments Raised {A} exn.

Definition max_level_default : Z := 10.

(** [generate_theorem_tree_optimized(axiom, rules, max_level=10)].  The
    argument [max_level] is [None] when the caller omits it.  The body has no
    [raise] and no operation that can fail on a string, a list of rules and
    an integer: the only way out is [return root].  The root is the first
    object created, so its reference is 0. *)
Definition generate_theorem_tree_optimized (axiom : string)
    (rules : list rule) (max_level : option Z) : outcome tree :=
  let max_level := default max_level_default max_level in
  let st := final_state axiom rules max_level in
  Returned (mkTree (heap st) 0%nat).

(** ** Vocabulary of the properties *)

(** The nodes of a tree: the root and, transitively, the children. *)
Inductive in_tree (t : tree) : ref → Prop :=
| in_tree_root : in_tree t (root t)
| in_tree_child p pn c :
    in_tree t p → nodes t !! p = Some pn → c ∈ children pn → in_tree t c.

(** The strings held by the nodes of a tree. *)
Definition holds (t : tree) (s : string) : Prop :=
  ∃ i nd, in_tree t i ∧ nodes t !! i = Some nd ∧ theorem nd = s.

(** The theorem held by the parent of the node that holds [s]. *)
Definition parent_theorem (h : store) (s : string) : option string :=
  nd ← List.find (λ nd, String.eqb (theorem nd) s) h;
  p ← parent nd;
  theorem <$> h !! p.

(** Two trees that differ in the order of siblings only: the same strings,
    each below the same parent string. *)
Definition same_up_to_sibling_order (t t' : tree) : Prop :=
  (∀ s, holds t s ↔ holds t' s) ∧
  (∀ s, parent_theorem (nodes t) s = parent_theorem (nodes t') s).

(** [derives rules axiom n s]: [s] is obtained from [axiom] by [n] rule
    applications. *)
Inductive derives (rules : list rule) (axiom : string) : nat → string → Prop :=
| derives_axiom : derives rules axiom O axiom
| derives_step n s r s' :
    derives rules axiom n s → r ∈ rules → r s = Some s' →
    derives rules axiom (S n) s'.

(** A later store keeps every object of an earlier one, with its theorem,
    level and parent; child lists only grow at the end. *)
Definition extends (h h' : store) : Prop :=
  ∀ i nd, h !! i = Some nd →
    ∃ nd', h' !! i = Some nd' ∧ theorem nd' = theorem nd ∧
           level nd' = level nd ∧ parent nd' = parent nd ∧
           children nd `prefix_of` children nd'.

(** The queue entry of every object, in allocation order. *)
Definition entries (h : store) : list (ref * Z) :=
  imap (λ i nd, (i, level nd)) h.

(** Every result of rule [r] on the theorem of object [i] is held by an
    object at most one level up. *)
Definition closed_at (h : store) (i : ref) (r : rule) : Prop :=
  ∀ nd s', h !! i = Some nd → r (theorem nd) = Some s' →
    ∃ j nd', h !! j = Some nd' ∧ theorem nd' = s' ∧ level nd' ≤ level nd + 1.

(** Invariant of the store and the seen set, at every point of the run. *)
Record core (rules : list rule) (axiom : string) (max_level : Z)
    (st : state) : Prop := mkCore {
  core_root : ∃ r, heap st !! 0%nat = Some r ∧ theorem r = axiom ∧
                   level r = 0 ∧ parent r = None;
  core_seen : ∀ s, s ∈ seen_theorems st ↔
                   ∃ i nd, heap st !! i = Some nd ∧ theorem nd = s;
  core_uniq : ∀ i j ni nj, heap st !! i = Some ni → heap st !! j = Some nj →
                   theorem ni = theorem nj → i = j;
  core_parent : ∀ i nd, heap st !! i = Some nd → i ≠ 0%nat →
                   ∃ p pn, parent nd = Some p ∧ (p < i)%nat ∧
                           heap st !! p = Some pn ∧
                           level nd = level pn + 1 ∧ i ∈ children pn;
  core_children : ∀ p pn c, heap st !! p = Some pn → c ∈ children pn →
                   ∃ cn, heap st !! c = Some cn ∧ parent cn = Some p;
  core_depth : ∀ i nd, heap st !! i = Some nd →
                   0 ≤ level nd ≤ Z.max 0 max_level;
  core_mono : ∀ i j ni nj, (i ≤ j)%nat → heap st !! i = Some ni →
                   heap st !! j = Some nj → level ni ≤ level nj;
  core_sound : ∀ i nd, heap st !! i = Some nd →
                   derives rules axiom (Z.to_nat (level nd)) (theorem nd)
}.

(** Invariant at the head of the [while] loop: the objects before [k] have
    been popped and expanded, the others wait in the queue. *)
Record at_head (rules : list rule) (axiom : string) (max_level : Z)
    (k : nat) (st : state) : Prop := mkAtHead {
  head_core : core rules axiom max_level st;
  head_queue : queue st = drop k (entries (heap st));
  head_span : ∀ i j ni nj, (k ≤ i)%nat → heap st !! i = Some ni →
                   heap st !! j = Some nj → level nj ≤ level ni + 1;
  head_closed : ∀ i r, (i < k)%nat → r ∈ rules → closed_at (heap st) i r
}.

(** Invariant inside the [for] loop over the rules, while the object [cur]
    popped at level [lvl] is expanded and the rules [tried] are behind. *)
Record in_body (rules : list rule) (axiom : string) (max_level : Z)
    (cur : ref) (lvl : Z) (tried : list rule) (st : state) : Prop := mkInBody {
  body_core : core rules axiom max_level st;
  body_queue : queue st = drop (S cur) (entries (heap st));
  body_cur : ∃ nd, heap st !! cur = Some nd ∧ level nd = lvl;
  body_below : lvl < max_level;
  body_top : ∀ j nj, heap st !! j = Some nj → level nj ≤ lvl + 1;
  body_closed : ∀ i r, (i < cur)%nat → r ∈ rules → closed_at (heap st) i r;
  body_tried : ∀ r, r ∈ tried → closed_at (heap st) cur r
}.

(** The runs of the loop as a relation. *)
Definition steps (rules : list rule) (max_level : Z) : relation state :=
  rtc (λ st st', step rules max_level st = Some st').

(** The store after [TheoremNode(s, l)] is created and attached to the
    object [c]. *)
Definition grown (h : store) (c : ref) (s : string) (l : Z) : store :=
  alter (append_child (length h)) c h ++ [mkNode s l (Some c) []].

(** What one pass of the [for] body does to the state. *)
Inductive applied (c : ref) (l : Z) (st : state) (r : rule) : state → Prop :=
| applied_skip : applied c l st r st
| applied_new cur s :
    heap st !! c = Some cur → r (theorem cur) = Some s →
    s ∉ seen_theorems st →
    applied c l st r
      (mkState (grown (heap st) c s (l + 1))
               ({[s]} ∪ seen_theorems st)
               (queue st ++ [(length (heap st), l + 1)])).

(** ** The reporting utilities *)

(** [collect_all_theorems]: the inner [dfs] appends the node to
    [all_theorems], then visits the children in their stored order.  [fuel]
    is the number of nested calls that the interpreter still allows; [None]
    stands for the [RecursionError] raised when they are used up. *)
Fixpoint dfs (fuel : nat) (h : store) (node : ref) (all_theorems : list ref)
    : option (list ref) :=
  match fuel with
  | O => None
  | S fuel' =>
    match h !! node with
    | None => None
    | Some nd =>
      foldl (λ acc child, all ← acc; dfs fuel' h child all)
            (Some (all_theorems ++ [node])) (children nd)
    end
  end.

Definition collect_all_theorems (limit : nat) (h : store) (root : ref)
    : option (list ref) :=
  dfs limit h root [].

(** [s * n] on strings; a count that is not positive gives the empty
    string. *)
Fixpoint str_repeat (s : string) (n : nat) : string :=
  match n with
  | O => ""
  | S n' => s +:+ str_repeat s n'
  end.

(** The line printed for one node by [print_tree_structure]. *)
Definition tree_line (indent : Z) (nd : TheoremNode) : string :=
  str_repeat "  " (Z.to_nat indent)
  +:+ "├─ " +:+ theorem nd +:+ " (level " +:+ pretty (level nd) +:+ ")".

(** [print_tree_structure(node, indent)]: the lines written to the console
    are appended to [out]; [fuel] and [None] are as for [dfs]. *)
Fixpoint print_tree_structure (fuel : nat) (h : store) (node : ref)
    (indent : Z) (out : list string) : option (list string) :=
  match fuel with
  | O => None
  | S fuel' =>
    match h !! node with
    | None => None
    | Some nd =>
      foldl (λ acc child,
               out ← acc; print_tree_structure fuel' h child (indent + 1) out)
            (Some (out ++ [tree_line indent nd])) (children nd)
    end
  end.

(** The body of the grouping loop of [print_theorems_by_level]: create the
    bucket of the level when it is missing, then append the theorem. *)
Definition by_level_add (by_level : gmap Z (list string)) (nd : TheoremNode)
    : gmap Z (list string) :=
  let by_level :=
    match by_level !! level nd with
    | None => <[level nd := []]> by_level
    | Some _ => by_level
    end in
  alter (λ bucket, bucket ++ [theorem nd]) (level nd) by_level.

Definition group_by_level (h : store) (all_theorems : list ref)
    : gmap Z (list string) :=
  foldl (λ by_level i,
           match h !! i with
           | Some nd => by_level_add by_level nd
           | None => by_level
           end) ∅ all_theorems.

(** [print_theorems_by_level(root)]: one line per level, for the levels in
    ascending order.  The line [Level {level}: {by_level[level]}] is
    represented by the pair of the two values it shows. *)
Definition print_theorems_by_level (limit : nat) (h : store) (root : ref)
    : option (list (Z * list string)) :=
  all_theorems ← collect_all_theorems limit h root;
  let by_level := group_by_level h all_theorems in
  Some ((λ level, (level, default [] (by_level !! level)))
          <$> merge_sort Z.le (elements (dom by_level))).

(** The number of occurrences of a character in a string. *)
Fixpoint count_char (c : Ascii.ascii) (s : string) : nat :=
  match s with
  | EmptyString => O
  | String c' s' =>
    ((if Ascii.eqb c c' then 1 else 0) + count_char c s')%nat
  end.

(** A derivation: every string but the first is the result of a rule on the
    string before it. *)
Inductive derivation (rules : list rule) : list string → Prop :=
| derivation_start s : derivation rules [s]
| derivation_snoc path s r s' :
    derivation rules (path ++ [s]) → r ∈ rules → r s = Some s' →
    derivation rules ((path ++ [s]) ++ [s']).

(** Every parent link of the store is one rule application. *)
Definition edges_derived (rules : list rule) (h : store) : Prop :=
  ∀ i nd p pn, h !! i = Some nd → parent nd = Some p → h !! p = Some pn →
    ∃ r, r ∈ rules ∧ r (theorem pn) = Some (theorem nd).

(** [a] is [d], or an ancestor of [d] along the parent links. *)
Inductive ancestor (h : store) (a : ref) : ref → Prop :=
| ancestor_self : ancestor h a a
| ancestor_up d nd p :
    h !! d = Some nd → parent nd = Some p → ancestor h a p → ancestor h a d.

(** [p] occurs before [j] in the list [l]. *)
Definition before (l : list ref) (p j : ref) : Prop :=
  ∃ l1 l2 l3, l = l1 ++ p :: l2 ++ j :: l3.

(** What a store must satisfy for the traversals: parent and child links
    agree, a parent is older than its child, no child is listed twice. *)
Record linked (h : store) : Prop := mkLinked {
  linked_parent : ∀ j nd p, h !! j = Some nd → parent nd = Some p →
                    (p < j)%nat ∧ ∃ pn, h !! p = Some pn ∧ j ∈ children pn;
  linked_children : ∀ p pn c, h !! p = Some pn → c ∈ children pn →
                    ∃ cn, h !! c = Some cn ∧ parent cn = Some p;
  linked_NoDup : ∀ p pn, h !! p = Some pn → NoDup (children pn)
}.

(** The part of a traversal that belongs to the node [i]: the nodes below
    [i], each once, and each after its parent; [d] nested calls are enough
    to collect it. *)
Record subtree_order (h : store) (d : nat) (i : ref) (l : list ref) : Prop :=
  mkSubtreeOrder {
  order_dfs : ∀ fuel acc, (d ≤ fuel)%nat →
                dfs fuel h i acc = Some (acc ++ l);
  order_head : head l = Some i;
  order_NoDup : NoDup l;
  order_elem : ∀ j, j ∈ l ↔ ancestor h i j;
  order_before : ∀ j nd p, j ∈ l → j ≠ i → h !! j = Some nd →
                   parent nd = Some p → before l p j
}.

(** ** The store after a child is created and attached *)

Section Store.
Implicit Types (h : store) (nd : TheoremNode) (i c : ref).

Lemma add_child_alloc h c s l :
  (c < length h)%nat →
  add_child c (length h) (h ++ [new_node s l]) = grown h c s l.
Proof.
  intros Hc. unfold add_child, grown.
  rewrite alter_app_l by done.
  rewrite alter_app_r_alt by (rewrite length_alter; lia).
  rewrite length_alter, Nat.sub_diag. done.
Qed.

Lemma length_grown h c s l : length (grown h c s l) = S (length h).
Proof. unfold grown. rewrite length_app, length_alter. simpl. lia. Qed.

Lemma grown_lookup_old h c s l i nd :
  h !! i = Some nd →
  grown h c s l !! i =
    Some (if decide (i = c) then append_child (length h) nd else nd).
Proof.
  intros Hi. unfold grown.
  rewrite lookup_app_l
    by (rewrite length_alter; by eapply lookup_lt_Some).
  destruct (decide (i = c)) as [->|Hne].
  - by rewrite list_lookup_alter_eq, Hi.
  - by rewrite list_lookup_alter_ne.
Qed.

Lemma grown_lookup_new h c s l :
  grown h c s l !! length h = Some (mkNode s l (Some c) []).
Proof.
  unfold grown. rewrite lookup_app_r by (rewrite length_alter; lia).
  by rewrite length_alter, Nat.sub_diag.
Qed.

Lemma grown_lookup_inv h c s l i nd' :
  grown h c s l !! i = Some nd' →
  (∃ nd, h !! i = Some nd ∧
         nd' = if decide (i = c) then append_child (length h) nd else nd)
  ∨ (i = length h ∧ nd' = mkNode s l (Some c) []).
Proof.
  intros Hi.
  destruct (decide (i < length h)%nat) as [Hlt|Hge].
  - left. destruct (lookup_lt_is_Some_2 h i Hlt) as [nd Hnd].
    exists nd. split; [done|].
    rewrite (grown_lookup_old _ c s l _ _ Hnd) in Hi. congruence.
  - right. apply lookup_lt_Some in Hi as Hlen.
    rewrite length_grown in Hlen.
    assert (i = length h) as -> by lia.
    rewrite grown_lookup_new in Hi. split; congruence.
Qed.

Lemma extends_refl h : extends h h.
Proof. intros i nd Hi. exists nd. repeat split; done. Qed.

Lemma extends_trans h1 h2 h3 :
  extends h1 h2 → extends h2 h3 → extends h1 h3.
Proof.
  intros H12 H23 i nd Hi.
  destruct (H12 _ _ Hi) as (nd2 & Hi2 & Ht & Hl & Hp & Hc).
  destruct (H23 _ _ Hi2) as (nd3 & Hi3 & Ht' & Hl' & Hp' & Hc').
  exists nd3. repeat split; try congruence. by etrans.
Qed.

Lemma extends_grown h c s l : extends h (grown h c s l).
Proof.
  intros i nd Hi. eexists. split; [by apply grown_lookup_old|].
  case_decide; simpl; repeat split; try done.
  by apply prefix_app_r.
Qed.

Lemma extends_length h h' : extends h h' → (length h ≤ length h')%nat.
Proof.
  intros He. destruct (decide (length h = 0)%nat) as [|Hne]; [lia|].
  destruct (lookup_lt_is_Some_2 h (pred (length h))) as [nd Hnd]; [lia|].
  destruct (He _ _ Hnd) as (nd' & Hnd' & _).
  apply lookup_lt_Some in Hnd'. lia.
Qed.

Lemma entries_grown h c s l :
  entries (grown h c s l) = entries h ++ [(length h, l)].
Proof.
  unfold entries, grown. rewrite imap_app. simpl.
  rewrite length_alter, Nat.add_0_r. f_equal.
  apply list_eq. intros i. rewrite !list_lookup_imap.
  destruct (decide (c = i)) as [->|Hne].
  - rewrite list_lookup_alter_eq. by destruct (h !! i).
  - by rewrite list_lookup_alter_ne.
Qed.

Lemma length_entries h : length (entries h) = length h.
Proof. apply length_imap. Qed.

Lemma entries_lookup h i :
  entries h !! i = (λ nd, (i, level nd)) <$> h !! i.
Proof. apply list_lookup_imap. Qed.
End Store.

(** ** One rule application *)

Section ApplyRule.
Implicit Types (st : state) (r : rule) (c : ref) (l : Z).

Lemma apply_rule_applied c l st r : applied c l st r (apply_rule c l st r).
Proof.
  unfold apply_rule.
  destruct (heap st !! c) as [cur|] eqn:Hc; [|constructor].
  destruct (r (theorem cur)) as [s|] eqn:Hr; [|constructor].
  case_decide as Hs; [constructor|].
  unfold alloc. rewrite add_child_alloc by (by eapply lookup_lt_Some).
  by eapply applied_new.
Qed.

Lemma apply_rule_closed c l st r cur :
  heap st !! c = Some cur →
  (∀ s, r (theorem cur) = Some s →
        s ∈ seen_theorems (apply_rule c l st r)).
Proof.
  intros Hc s Hr. unfold apply_rule. rewrite Hc, Hr.
  case_decide; [done|]. simpl. set_solver.
Qed.
End ApplyRule.

(** ** The invariant of the store is kept by every rule application *)

Section Core.
Context (rules : list rule) (axiom : string) (max_level : Z).
Implicit Types (st : state) (r : rule) (c : ref) (l : Z).

Lemma grown_node (h : store) c s l i nd' :
  grown h c s l !! i = Some nd' →
  (∃ nd, h !! i = Some nd ∧ theorem nd' = theorem nd ∧
         level nd' = level nd ∧ parent nd' = parent nd ∧
         (children nd' = children nd ∨
          (i = c ∧ children nd' = children nd ++ [length h])))
  ∨ (i = length h ∧ nd' = mkNode s l (Some c) []).
Proof.
  intros [(nd & Hnd & ->)|[-> ->]]%grown_lookup_inv; [left|by right].
  exists nd. case_decide; simpl; naive_solver.
Qed.

Lemma core_init : core rules axiom max_level (init_state axiom).
Proof.
  split; simpl.
  - eexists. split; [done|]. done.
  - intros s. rewrite elem_of_singleton. split.
    + intros ->. by exists 0%nat, (new_node axiom 0).
    + intros (i & nd & Hi & <-). destruct i; simpl in Hi; [|done].
      by inversion Hi.
  - intros [|i] [|j] ni nj Hi Hj _; simpl in *; done.
  - intros [|i] nd Hi Hne; simpl in *; done.
  - intros [|p] pn c Hp Hc; simpl in *; [|done].
    inversion Hp; subst. simpl in Hc. by apply elem_of_nil in Hc.
  - intros [|i] nd Hi; simpl in *; [|done]. inversion Hi; simpl. lia.
  - intros [|i] [|j] ni nj _ Hi Hj; simpl in *; try done.
    inversion Hi; inversion Hj; simpl. lia.
  - intros [|i] nd Hi; simpl in *; [|done]. inversion Hi; simpl.
    constructor.
Qed.

Lemma core_applied c l st r st' cur :
  core rules axiom max_level st →
  heap st !! c = Some cur → level cur = l → l < max_level → r ∈ rules →
  (∀ j nj, heap st !! j = Some nj → level nj ≤ l + 1) →
  applied c l st r st' →
  core rules axiom max_level st'.
Proof.
  intros [Hroot Hseen Huniq Hpar Hchild Hdepth Hmono Hsound]
         Hc Hl Hlt Hr Htop Happ.
  destruct Happ as [|cur' s Hc' Hrs Hfresh]; [by split|].
  assert (cur' = cur) as -> by congruence.
  pose proof (extends_grown (heap st) c s (l + 1)) as Hext.
  assert (c < length (heap st))%nat as Hclt by (by eapply lookup_lt_Some).
  split; simpl.
  - destruct Hroot as (rt & H0 & ? & ? & ?).
    destruct (Hext _ _ H0) as (rt' & ? & ? & ? & ? & _).
    exists rt'. repeat split; congruence.
  - intros s'. rewrite elem_of_union, elem_of_singleton, Hseen. split.
    + intros [->|(i & nd & Hi & <-)].
      * eexists _, _. split; [apply grown_lookup_new|done].
      * destruct (Hext _ _ Hi) as (nd' & ? & ? & _). by exists i, nd'.
    + intros (i & nd' & Hi & <-).
      apply grown_node in Hi as [(nd & ? & ? & _)|[_ ->]]; [|by left].
      right. exists i, nd. split; congruence.
  - intros i j ni nj Hi Hj Heq.
    apply grown_node in Hi as [(ni0 & Hi & Hti & _)|[-> ->]];
      apply grown_node in Hj as [(nj0 & Hj & Htj & _)|[-> ->]].
    + eapply Huniq; [done..|congruence].
    + exfalso. apply Hfresh, Hseen. exists i, ni0. split; [done|].
      simpl in Heq. congruence.
    + exfalso. apply Hfresh, Hseen. exists j, nj0. split; [done|].
      simpl in Heq. congruence.
    + done.
  - intros i nd' Hi Hne.
    apply grown_node in Hi as [(nd & Hi & _ & Hli & Hpi & _)|[-> ->]].
    + destruct (Hpar _ _ Hi Hne) as (p & pn & Hp & Hlt' & Hpn & Hlv & Hin).
      destruct (Hext _ _ Hpn) as (pn' & ? & _ & ? & _ & Hpre).
      exists p, pn'. repeat split; try congruence; try done.
      eapply elem_of_prefix; [|exact Hpre]. done.
    + destruct (Hext _ _ Hc) as (cur' & Hcur' & _ & ? & _).
      exists c, cur'. simpl. repeat split; try done; [congruence|].
      rewrite (grown_lookup_old _ c s (l + 1) _ _ Hc) in Hcur'.
      rewrite decide_True in Hcur' by done.
      inversion Hcur'; simpl. apply elem_of_app. right.
      by apply list_elem_of_singleton.
  - intros p pn' c' Hp Hin.
    apply grown_node in Hp as [(pn & Hp & _ & _ & _ & Hch)|[-> ->]];
      [|by apply elem_of_nil in Hin].
    assert (c' ∈ children pn ∨ (p = c ∧ c' = length (heap st)))
      as [Hold|[-> ->]].
    { destruct Hch as [Hch|[-> Hch]]; rewrite Hch in Hin; [by left|].
      apply elem_of_app in Hin as [?|Hin]; [by left|].
      apply list_elem_of_singleton in Hin. by right. }
    + destruct (Hchild _ _ _ Hp Hold) as (cn & Hcn & ?).
      destruct (Hext _ _ Hcn) as (cn' & ? & _ & _ & ? & _).
      exists cn'. split; congruence.
    + eexists. split; [apply grown_lookup_new|done].
  - intros i nd' Hi.
    apply grown_node in Hi as [(nd & Hi & _ & -> & _)|[-> ->]]; [eauto|].
    simpl. pose proof (Hdepth _ _ Hc). lia.
  - intros i j ni nj Hij Hi Hj.
    apply grown_node in Hi as [(ni0 & Hi & _ & -> & _)|[-> ->]];
      apply grown_node in Hj as [(nj0 & Hj & _ & -> & _)|[-> ->]].
    + eauto.
    + simpl. eauto.
    + apply lookup_lt_Some in Hj. lia.
    + done.
  - intros i nd' Hi.
    apply grown_node in Hi as [(nd & Hi & -> & -> & _)|[-> ->]]; [eauto|].
    simpl. pose proof (Hdepth _ _ Hc).
    replace (Z.to_nat (l + 1)) with (S (Z.to_nat l)) by lia.
    econstructor; [|done..]. rewrite <- Hl. eauto.
Qed.

End Core.

(** ** The loop invariants *)

Section Loop.
Context (rules : list rule) (axiom : string) (max_level : Z).
Implicit Types (st : state) (r : rule) (c k : ref) (l : Z).

Lemma applied_extends c l st r st' :
  applied c l st r st' → extends (heap st) (heap st').
Proof. intros [|]; [apply extends_refl|apply extends_grown]. Qed.

Lemma applied_top c l st r st' :
  applied c l st r st' →
  (∀ j nj, heap st !! j = Some nj → level nj ≤ l + 1) →
  ∀ j nj, heap st' !! j = Some nj → level nj ≤ l + 1.
Proof.
  intros [|cur s _ _ _] Htop j nj Hj; [eauto|]. simpl in Hj.
  apply grown_node in Hj as [(nd & Hj & _ & -> & _)|[-> ->]]; [eauto|].
  simpl. lia.
Qed.

Lemma applied_queue c l st r st' :
  applied c l st r st' → (S c ≤ length (heap st))%nat →
  queue st = drop (S c) (entries (heap st)) →
  queue st' = drop (S c) (entries (heap st')).
Proof.
  intros [|cur s _ _ _] Hlen Hq; [done|]. simpl.
  rewrite entries_grown, drop_app_le by (by rewrite length_entries).
  by rewrite Hq.
Qed.

Lemma closed_at_extends (h h' : store) i r :
  extends h h' → is_Some (h !! i) → closed_at h i r → closed_at h' i r.
Proof.
  intros Hext [nd Hnd] Hcl nd' s' Hnd' Hr.
  destruct (Hext _ _ Hnd) as (nd'' & Hnd'' & Ht & Hl & _).
  assert (nd'' = nd') as -> by congruence.
  destruct (Hcl nd s' Hnd) as (j & nj & Hj & Htj & Hlj); [congruence|].
  destruct (Hext _ _ Hj) as (nj' & Hj' & Htj' & Hlj' & _).
  exists j, nj'. split; [done|]. split; [congruence|]. lia.
Qed.

Lemma core_requeue st q :
  core rules axiom max_level st →
  core rules axiom max_level (mkState (heap st) (seen_theorems st) q).
Proof. intros []. by split. Qed.

Lemma in_body_apply_rule c l tried st r :
  in_body rules axiom max_level c l tried st → r ∈ rules →
  in_body rules axiom max_level c l (tried ++ [r]) (apply_rule c l st r).
Proof.
  intros [Hcore Hq (cur & Hcur & Hl) Hlt Htop Hcl Htried] Hr.
  pose proof (apply_rule_applied c l st r) as Happ.
  pose proof (apply_rule_closed c l st r cur Hcur) as Hnew.
  set (st' := apply_rule c l st r) in *.
  pose proof (applied_extends _ _ _ _ _ Happ) as Hext.
  pose proof (applied_top _ _ _ _ _ Happ Htop) as Htop'.
  assert (core rules axiom max_level st') as Hcore'
    by (by eapply core_applied).
  assert (c < length (heap st))%nat as Hclt by (by eapply lookup_lt_Some).
  destruct (Hext _ _ Hcur) as (cur' & Hcur' & Htc & Hlc & _).
  split; try done.
  - by eapply applied_queue.
  - exists cur'. split; [done|congruence].
  - intros i r' Hi Hr'. eapply closed_at_extends; [done| |by apply Hcl].
    apply lookup_lt_is_Some_2. lia.
  - intros r' [Hr'|Hr']%elem_of_app.
    + eapply closed_at_extends; [done|by eexists|by apply Htried].
    + apply list_elem_of_singleton in Hr' as ->.
      intros nd s' Hnd Hrs. assert (nd = cur') as -> by congruence.
      rewrite Htc in Hrs. apply Hnew in Hrs.
      apply (core_seen _ _ _ _ Hcore') in Hrs as (j & nj & Hj & Htj).
      exists j, nj. split; [done|]. split; [done|].
      pose proof (Htop' _ _ Hj). lia.
Qed.

Lemma in_body_expand todo c l tried st :
  in_body rules axiom max_level c l tried st →
  (∀ r, r ∈ todo → r ∈ rules) →
  in_body rules axiom max_level c l (tried ++ todo) (expand todo c l st).
Proof.
  unfold expand. revert tried st.
  induction todo as [|r todo IH]; intros tried st Hin Hsub; simpl.
  - by rewrite app_nil_r.
  - replace (tried ++ r :: todo) with ((tried ++ [r]) ++ todo)
      by (by rewrite <- app_assoc).
    apply IH.
    + apply in_body_apply_rule; [done|]. apply Hsub. by left.
    + intros r' Hr'. apply Hsub. by right.
Qed.

Lemma at_head_init : at_head rules axiom max_level 0 (init_state axiom).
Proof.
  split.
  - apply core_init.
  - done.
  - intros [|i] [|j] ni nj _ Hi Hj; simpl in *; try done.
    inversion Hi; inversion Hj; simpl. lia.
  - intros i r Hi. lia.
Qed.

Lemma at_head_step k st st' :
  at_head rules axiom max_level k st →
  step rules max_level st = Some st' →
  at_head rules axiom max_level (S k) st'.
Proof.
  intros [Hcore Hq Hspan Hcl] Hstep. unfold step in Hstep.
  destruct (queue st) as [|[c l] rest] eqn:Hqueue; [done|].
  case_decide as Hlt; [|done]. inversion Hstep as [Hst']; clear Hstep.
  assert (entries (heap st) !! k = Some (c, l)) as Hk.
  { rewrite <- (Nat.add_0_r k), <- lookup_drop, <- Hq. done. }
  assert (rest = drop (S k) (entries (heap st))) as Hrest.
  { rewrite (drop_S _ _ _ Hk) in Hq. congruence. }
  rewrite entries_lookup in Hk.
  destruct (heap st !! k) as [cur|] eqn:Hcur; [|done].
  simpl in Hk. inversion Hk; subst c l. clear Hk.
  assert (in_body rules axiom max_level k (level cur) []
            (mkState (heap st) (seen_theorems st) rest)) as Hbody.
  { split; simpl; try done.
    - by apply core_requeue.
    - by exists cur.
    - intros j nj Hj. by eapply (Hspan k j).
    - intros r Hr. by apply elem_of_nil in Hr. }
  apply (in_body_expand rules) in Hbody; [|done]. simpl in Hbody.
  destruct Hbody as [Hcore' Hq' (cur' & Hcur' & Hl') _ Htop Hcl' Htried].
  split; try done.
  - intros i j ni nj Hi Hni Hnj.
    pose proof (core_mono _ _ _ _ Hcore' k i cur' ni ltac:(lia) Hcur' Hni).
    pose proof (Htop _ _ Hnj). lia.
  - intros i r Hi Hr. destruct (decide (i = k)) as [->|]; [by apply Htried|].
    apply Hcl'; [lia|done].
Qed.

Lemma at_head_bfs_loop fuel k st :
  at_head rules axiom max_level k st →
  ∃ k', at_head rules axiom max_level k' (bfs_loop fuel rules max_level st).
Proof.
  revert k st. induction fuel as [|fuel IH]; intros k st Hst; simpl.
  - by exists k.
  - destruct (step rules max_level st) as [st'|] eqn:Hstep; [|by exists k].
    eapply IH, at_head_step; done.
Qed.

Lemma at_head_final :
  ∃ k, at_head rules axiom max_level k (final_state axiom rules max_level).
Proof. eapply at_head_bfs_loop, at_head_init. Qed.

Lemma core_final :
  core rules axiom max_level (final_state axiom rules max_level).
Proof. destruct at_head_final as [k []]. done. Qed.

End Loop.

(** ** The loop is left *)

Section Termination.
Context (rules : list rule) (max_level : Z).
Implicit Types (st : state) (r : rule) (c : ref) (l : Z).

Let qw := queue_weight (length rules) max_level.
Let w := weight (length rules) max_level.

Lemma queue_weight_snoc q e : qw (q ++ [e]) = (qw q + w e.2)%nat.
Proof.
  subst qw w. induction q as [|e' q IH]; simpl; [lia|].
  rewrite IH. lia.
Qed.

Lemma apply_rule_weight c l st r :
  (qw (queue (apply_rule c l st r)) ≤ qw (queue st) + w (l + 1))%nat.
Proof.
  destruct (apply_rule_applied c l st r) as [|cur s _ _ _]; [lia|].
  simpl. rewrite queue_weight_snoc. simpl. lia.
Qed.

Lemma expand_weight todo c l st :
  (qw (queue (expand todo c l st))
   ≤ qw (queue st) + length todo * w (l + 1))%nat.
Proof.
  unfold expand. revert st. induction todo as [|r todo IH]; intros st; simpl.
  - lia.
  - etrans; [apply IH|]. pose proof (apply_rule_weight c l st r). lia.
Qed.

Lemma weight_below l :
  l < max_level → w l = S (length rules * w (l + 1)).
Proof.
  intros Hl. subst w. unfold weight.
  replace (Z.to_nat (max_level - l))
    with (S (Z.to_nat (max_level - (l + 1)))) by lia.
  done.
Qed.

Lemma step_weight st st' :
  step rules max_level st = Some st' →
  (qw (queue st') < qw (queue st))%nat.
Proof.
  unfold step. destruct (queue st) as [|[c l] rest]; [done|].
  case_decide as Hl; [|done]. intros [= <-].
  pose proof (expand_weight rules c l
                (mkState (heap st) (seen_theorems st) rest)) as Hle.
  simpl in Hle. change (qw ((c, l) :: rest)) with (w l + qw rest)%nat.
  rewrite (weight_below l Hl). lia.
Qed.

Lemma bfs_loop_exits fuel st :
  (qw (queue st) ≤ fuel)%nat →
  step rules max_level (bfs_loop fuel rules max_level st) = None.
Proof.
  revert st. induction fuel as [|fuel IH]; intros st Hfuel; simpl.
  - destruct (step rules max_level st) as [st'|] eqn:Hstep; [|done].
    apply step_weight in Hstep. lia.
  - destruct (step rules max_level st) as [st'|] eqn:Hstep; [|done].
    apply IH. apply step_weight in Hstep. lia.
Qed.

(** The fuel given to the loop in [final_state] is never used up: the loop
    condition is false in the final state. *)
Lemma loop_exits axiom :
  step rules max_level (final_state axiom rules max_level) = None.
Proof.
  apply bfs_loop_exits. subst qw. simpl. lia.
Qed.

Lemma bfs_loop_steps fuel st :
  steps rules max_level st (bfs_loop fuel rules max_level st).
Proof.
  revert st. induction fuel as [|fuel IH]; intros st; simpl; [done|].
  destruct (step rules max_level st) as [st'|] eqn:Hstep; [|done].
  eapply rtc_l; [exact Hstep|apply IH].
Qed.

End Termination.

(** ** Lengths of rewritten strings *)

Section Lengths.
Implicit Types (s old new : string).

Lemma length_append s1 s2 :
  String.length (s1 +:+ s2) = (String.length s1 + String.length s2)%nat.
Proof. induction s1 as [|c s1 IH]; simpl; [done|]. by rewrite IH. Qed.

Lemma length_slice_from n s :
  String.length (PyStr.slice_from n s) = (String.length s - n)%nat.
Proof.
  revert s. induction n as [|n IH]; intros [|c s]; simpl; try done.
Qed.

Lemma prefix_length old s :
  String.prefix old s = true → (String.length old ≤ String.length s)%nat.
Proof.
  revert s. induction old as [|a old IH]; intros [|c s]; simpl;
    try done; try lia.
  destruct (Ascii.ascii_dec a c); [|done]. intros H%IH. lia.
Qed.

Lemma length_replace_first old new s :
  PyStr.contains old s = true →
  (String.length (PyStr.replace_first old new s) + String.length old
   = String.length s + String.length new)%nat.
Proof.
  induction s as [|c s IH].
  - cbn [PyStr.contains PyStr.replace_first].
    destruct (String.prefix old "") eqn:Hp; [|done]. intros _.
    apply prefix_length in Hp. rewrite length_append, length_slice_from.
    simpl in *. lia.
  - cbn [PyStr.contains PyStr.replace_first].
    destruct (String.prefix old (String c s)) eqn:Hp.
    + intros _. apply prefix_length in Hp.
      rewrite length_append, length_slice_from. lia.
    + intros H%IH. simpl. lia.
Qed.

Lemma length_neq s1 s2 : String.length s1 ≠ String.length s2 → s1 ≠ s2.
Proof. congruence. Qed.

End Lengths.

(** ** The nodes of the tree are the objects of the store *)

Section Tree.
Context (rules : list rule) (axiom : string) (max_level : Z).
Implicit Types (st : state) (i : ref).

Lemma core_in_tree st i :
  core rules axiom max_level st → (i < length (heap st))%nat →
  in_tree (mkTree (heap st) 0%nat) i.
Proof.
  intros Hcore. induction (lt_wf i) as [i _ IH]. intros Hi.
  destruct (decide (i = 0%nat)) as [->|Hne]; [apply (in_tree_root (mkTree _ _))|].
  destruct (lookup_lt_is_Some_2 _ _ Hi) as [nd Hnd].
  destruct (core_parent _ _ _ _ Hcore i nd Hnd Hne)
    as (p & pn & _ & Hlt & Hpn & _ & Hin).
  eapply in_tree_child; [apply IH; [done|]|exact Hpn|done].
  by eapply lookup_lt_Some.
Qed.

Lemma in_tree_core st i :
  core rules axiom max_level st →
  in_tree (mkTree (heap st) 0%nat) i → is_Some (heap st !! i).
Proof.
  intros Hcore. induction 1 as [|p pn c _ _ Hp Hc]; simpl in *.
  - destruct (core_root _ _ _ _ Hcore) as (r & -> & _). by eexists.
  - destruct (core_children _ _ _ _ Hcore _ _ _ Hp Hc) as (cn & -> & _).
    by eexists.
Qed.

Lemma holds_core st s :
  core rules axiom max_level st →
  holds (mkTree (heap st) 0%nat) s ↔
  ∃ i nd, heap st !! i = Some nd ∧ theorem nd = s.
Proof.
  intros Hcore. split.
  - intros (i & nd & _ & Hi & Ht). by exists i, nd.
  - intros (i & nd & Hi & Ht). exists i, nd. split; [|done].
    apply core_in_tree; [done|]. by eapply lookup_lt_Some.
Qed.

(** The walk of [get_path_to_root] ends within the size of the store. *)
Lemma walk_up_total st fuel i path :
  core rules axiom max_level st →
  (i < fuel)%nat → (i < length (heap st))%nat →
  is_Some (walk_up fuel (heap st) (Some i) path).
Proof.
  intros Hcore. revert i path.
  induction fuel as [|fuel IH]; intros i path Hf Hi; [lia|]. simpl.
  destruct (lookup_lt_is_Some_2 _ _ Hi) as [nd Hnd]. rewrite Hnd.
  destruct (decide (i = 0%nat)) as [->|Hne].
  - destruct (core_root _ _ _ _ Hcore) as (r & Hr & _ & _ & Hp).
    assert (r = nd) as -> by congruence. rewrite Hp.
    destruct fuel; by eexists.
  - destruct (core_parent _ _ _ _ Hcore i nd Hnd Hne)
      as (p & pn & -> & Hlt & Hpn & _).
    apply IH; [lia|]. by eapply lookup_lt_Some.
Qed.

Lemma get_path_to_root_total st i :
  core rules axiom max_level st → (i < length (heap st))%nat →
  is_Some (get_path_to_root (heap st) i).
Proof.
  intros Hcore Hi. unfold get_path_to_root, get_path_to_root_fuel.
  destruct (walk_up_total st (length (heap st)) i [] Hcore Hi Hi) as [p ->].
  by eexists.
Qed.

End Tree.

(** ** A larger bound continues the run of a smaller one *)

Section Monotone.
Context (rules : list rule).
Implicit Types (st : state) (m : Z).

Lemma expand_extends todo c l st :
  extends (heap st) (heap (expand todo c l st)).
Proof.
  unfold expand. revert st. induction todo as [|r todo IH]; intros st; simpl.
  - apply extends_refl.
  - eapply extends_trans; [|apply IH].
    eapply applied_extends, apply_rule_applied.
Qed.

Lemma step_extends m st st' :
  step rules m st = Some st' → extends (heap st) (heap st').
Proof.
  unfold step. destruct (queue st) as [|[c l] rest]; [done|].
  case_decide; [|done]. intros [= <-].
  apply (expand_extends rules c l (mkState _ _ _)).
Qed.

Lemma steps_extends m st st' :
  steps rules m st st' → extends (heap st) (heap st').
Proof.
  induction 1 as [|st1 st2 st3 Hstep _ IH]; [apply extends_refl|].
  eapply extends_trans; [by eapply step_extends|done].
Qed.

Lemma step_mono m m' st st' :
  m ≤ m' → step rules m st = Some st' → step rules m' st = Some st'.
Proof.
  intros Hm. unfold step. destruct (queue st) as [|[c l] rest]; [done|].
  case_decide; [|done]. intros ->. rewrite decide_True by lia. done.
Qed.

Lemma steps_mono m m' st st' :
  m ≤ m' → steps rules m st st' → steps rules m' st st'.
Proof.
  intros Hm. induction 1 as [|st1 st2 st3 Hstep _ IH]; [done|].
  eapply rtc_l; [by eapply step_mono|done].
Qed.

Lemma steps_join m st a b :
  steps rules m st a → steps rules m st b → step rules m b = None →
  steps rules m a b.
Proof.
  intros Ha. revert b. induction Ha as [|st1 st2 st3 Hstep _ IH];
    intros b Hb Hend; [done|].
  apply rtc_inv in Hb as [->|(st2' & Hstep' & Hb)]; simpl in *;
    [congruence|].
  assert (st2' = st2) as -> by congruence. by apply IH.
Qed.

Lemma final_state_extends axiom m m' :
  m ≤ m' →
  extends (heap (final_state axiom rules m))
          (heap (final_state axiom rules m')).
Proof.
  intros Hm. apply (steps_extends m'), steps_join with (init_state axiom).
  - eapply steps_mono; [done|]. apply bfs_loop_steps.
  - apply bfs_loop_steps.
  - apply loop_exits.
Qed.

Lemma walk_up_extends (h h' : store) fuel fuel' cur path res :
  extends h h' → (fuel ≤ fuel')%nat →
  walk_up fuel h cur path = Some res →
  walk_up fuel' h' cur path = Some res.
Proof.
  intros Hext. revert fuel' cur path.
  induction fuel as [|fuel IH]; intros fuel' [c|] path Hf; simpl;
    try done; try (by destruct fuel').
  destruct fuel' as [|fuel']; [lia|]. simpl.
  destruct (h !! c) as [nd|] eqn:Hc; [|done].
  destruct (Hext _ _ Hc) as (nd' & -> & -> & _ & -> & _).
  apply IH. lia.
Qed.

Lemma get_path_to_root_extends (h h' : store) i res :
  extends h h' →
  get_path_to_root h i = Some res → get_path_to_root h' i = Some res.
Proof.
  intros Hext. unfold get_path_to_root, get_path_to_root_fuel.
  destruct (walk_up (length h) h (Some i) []) as [p|] eqn:Hw; [|done].
  rewrite (walk_up_extends h h' (length h) (length h') (Some i) [] p);
    auto using extends_length.
Qed.

End Monotone.

(** ** The tree holds exactly the strings derivable within the bound *)

Section Complete.
Context (rules : list rule) (axiom : string) (max_level : Z).
Implicit Types (st : state) (i k : ref).

Lemma expanded_below k st i nd :
  at_head rules axiom max_level k st →
  step rules max_level st = None →
  heap st !! i = Some nd → level nd < max_level → (i < k)%nat.
Proof.
  intros [Hcore Hq _ _] Hend Hi Hl.
  destruct (decide (i < k)%nat) as [|Hge]; [done|]. exfalso.
  assert (k < length (heap st))%nat as Hk
    by (apply lookup_lt_Some in Hi; lia).
  destruct (lookup_lt_is_Some_2 _ _ Hk) as [nk Hnk].
  assert (entries (heap st) !! k = Some (k, level nk)) as Hek
    by (by rewrite entries_lookup, Hnk).
  rewrite (drop_S _ _ _ Hek) in Hq. unfold step in Hend. rewrite Hq in Hend.
  pose proof (core_mono _ _ _ _ Hcore k i nk nd ltac:(lia) Hnk Hi).
  rewrite decide_True in Hend by lia. done.
Qed.

Lemma at_head_complete k st n s :
  at_head rules axiom max_level k st →
  step rules max_level st = None →
  derives rules axiom n s → Z.of_nat n ≤ max_level →
  ∃ j nd, heap st !! j = Some nd ∧ theorem nd = s ∧ level nd ≤ Z.of_nat n.
Proof.
  intros Hhead Hend Hder. induction Hder as [|n s r s' _ IH Hr Hrs]; intros Hn.
  - destruct (core_root _ _ _ _ (head_core _ _ _ _ _ Hhead))
      as (rt & H0 & Ht & Hl & _).
    exists 0%nat, rt. repeat split; [done..|lia].
  - destruct IH as (j & nd & Hj & Ht & Hl); [lia|].
    assert (j < k)%nat as Hjk by (eapply expanded_below; [done..|lia]).
    destruct (head_closed _ _ _ _ _ Hhead j r Hjk Hr nd s' Hj)
      as (j' & nd' & Hj' & Ht' & Hl'); [by rewrite Ht|].
    exists j', nd'. repeat split; [done..|lia].
Qed.

Lemma derives_subseteq rules' n s :
  (∀ r, r ∈ rules → r ∈ rules') →
  derives rules axiom n s → derives rules' axiom n s.
Proof.
  intros Hsub. induction 1; [constructor|]. econstructor; eauto.
Qed.

(** The strings of the final store: those derivable from the axiom in at
    most [max_level] rule applications. *)
Lemma final_state_holds s :
  0 ≤ max_level →
  (∃ i nd, heap (final_state axiom rules max_level) !! i = Some nd ∧
           theorem nd = s)
  ↔ ∃ n, Z.of_nat n ≤ max_level ∧ derives rules axiom n s.
Proof.
  intros Hm. destruct (at_head_final rules axiom max_level) as [k Hhead].
  pose proof (head_core _ _ _ _ _ Hhead) as Hcore. split.
  - intros (i & nd & Hi & <-). exists (Z.to_nat (level nd)).
    pose proof (core_depth _ _ _ _ Hcore _ _ Hi).
    split; [lia|]. by eapply core_sound.
  - intros (n & Hn & Hder).
    destruct (at_head_complete k _ n s Hhead (loop_exits _ _ _) Hder Hn)
      as (j & nd & ? & ? & _).
    by exists j, nd.
Qed.

End Complete.

(** ** The properties of [generate_theorem_tree_optimized] *)

Section Claims.
Implicit Types (axiom : string) (rules : list rule) (t : tree).

Lemma generate_returned axiom rules max_level t :
  generate_theorem_tree_optimized axiom rules max_level = Returned t →
  t = mkTree (heap (final_state axiom rules
                      (default max_level_default max_level))) 0%nat.
Proof. unfold generate_theorem_tree_optimized. congruence. Qed.

(** C1. For every axiom, rule list and bound [max_level >= 0], two distinct
    nodes of the tree returned by [generate_theorem_tree_optimized] never
    hold the same theorem string. *)
Theorem generate_theorems_unique axiom rules (max_level : Z) t i j ni nj :
  0 ≤ max_level →
  generate_theorem_tree_optimized axiom rules (Some max_level) = Returned t →
  in_tree t i → in_tree t j →
  nodes t !! i = Some ni → nodes t !! j = Some nj →
  i ≠ j → theorem ni ≠ theorem nj.
Proof.
  intros _ ->%generate_returned _ _ Hi Hj Hne Heq. apply Hne.
  eapply core_uniq; [apply core_final|exact Hi|exact Hj|exact Heq].
Qed.

Lemma generate_theorems_unique_witness :
  ∃ t ni nj,
    generate_theorem_tree_optimized "MI" RULES (Some 1) = Returned t ∧
    nodes t !! 1%nat = Some ni ∧ nodes t !! 2%nat = Some nj ∧
    theorem ni ≠ theorem nj.
Proof.
  eexists _, (mkNode "MIU" 1 (Some 0%nat) []), (mkNode "MII" 1 (Some 0%nat) []).
  split; [reflexivity|]. split; [vm_compute; reflexivity|].
  split; [vm_compute; reflexivity|].
  eapply (generate_theorems_unique "MI" RULES 1 _ 1%nat 2%nat).
  - lia.
  - reflexivity.
  - apply (in_tree_child _ 0%nat (mkNode "MI" 0 None [1%nat; 2%nat]));
      [apply (in_tree_root (mkTree _ _))|vm_compute; reflexivity|].
    apply list_elem_of_In. simpl. tauto.
  - apply (in_tree_child _ 0%nat (mkNode "MI" 0 None [1%nat; 2%nat]));
      [apply (in_tree_root (mkTree _ _))|vm_compute; reflexivity|].
    apply list_elem_of_In. simpl. tauto.
  - vm_compute. reflexivity.
  - vm_compute. reflexivity.
  - lia.
Defined.

(** C2. In every tree returned by [generate_theorem_tree_optimized] the root
    has level 0 and no parent, and the level of every other node is the
    level of its parent plus 1. *)
Theorem generate_level_consistency axiom rules max_level t :
  generate_theorem_tree_optimized axiom rules max_level = Returned t →
  (∃ r, nodes t !! root t = Some r ∧ level r = 0 ∧ parent r = None) ∧
  (∀ i nd, in_tree t i → i ≠ root t → nodes t !! i = Some nd →
     ∃ p pn, parent nd = Some p ∧ in_tree t p ∧ nodes t !! p = Some pn ∧
             level nd = level pn + 1).
Proof.
  intros ->%generate_returned. simpl.
  pose proof (core_final rules axiom (default max_level_default max_level))
    as Hcore.
  split.
  - destruct (core_root _ _ _ _ Hcore) as (r & Hr & _ & Hl & Hp). eauto.
  - intros i nd _ Hne Hi.
    destruct (core_parent _ _ _ _ Hcore i nd Hi Hne)
      as (p & pn & Hp & _ & Hpn & Hl & _).
    exists p, pn. repeat split; try done.
    eapply core_in_tree; [done|]. by eapply lookup_lt_Some.
Qed.

Lemma generate_level_consistency_witness :
  ∃ t, generate_theorem_tree_optimized "MI" RULES (Some 1) = Returned t ∧
    (∃ r, nodes t !! root t = Some r ∧ level r = 0 ∧ parent r = None) ∧
    (∃ nd p pn, nodes t !! 1%nat = Some nd ∧ parent nd = Some p ∧
                nodes t !! p = Some pn ∧ level nd = level pn + 1).
Proof.
  eexists. split; [reflexivity|].
  destruct (generate_level_consistency "MI" RULES (Some 1) _ eq_refl)
    as [Hroot Hrest].
  split; [exact Hroot|].
  destruct (Hrest 1%nat (mkNode "MIU" 1 (Some 0%nat) []))
    as (p & pn & Hp & _ & Hpn & Hl).
  - apply (in_tree_child _ 0%nat (mkNode "MI" 0 None [1%nat; 2%nat]));
      [apply (in_tree_root (mkTree _ _))|vm_compute; reflexivity|].
    apply list_elem_of_In. simpl. tauto.
  - simpl. lia.
  - vm_compute. reflexivity.
  - eexists _, p, pn. split; [vm_compute; reflexivity|]. done.
Defined.

(** C3. For every axiom, rule list and bound [max_level >= 0], no node of the
    returned tree has a level above [max_level]. *)
Theorem generate_depth_bound axiom rules (max_level : Z) t i nd :
  0 ≤ max_level →
  generate_theorem_tree_optimized axiom rules (Some max_level) = Returned t →
  in_tree t i → nodes t !! i = Some nd →
  ¬ (level nd > max_level).
Proof.
  intros Hm ->%generate_returned _ Hi. simpl in *.
  pose proof (core_depth _ _ _ _ (core_final rules axiom max_level) i nd Hi).
  lia.
Qed.

Lemma generate_depth_bound_witness :
  ∃ t nd, generate_theorem_tree_optimized "MI" RULES (Some 1) = Returned t ∧
          nodes t !! 2%nat = Some nd ∧ ¬ (level nd > 1).
Proof.
  eexists _, (mkNode "MII" 1 (Some 0%nat) []).
  split; [reflexivity|]. split; [vm_compute; reflexivity|].
  eapply (generate_depth_bound "MI" RULES 1 _ 2%nat).
  - lia.
  - reflexivity.
  - apply (in_tree_child _ 0%nat (mkNode "MI" 0 None [1%nat; 2%nat]));
      [apply (in_tree_root (mkTree _ _))|vm_compute; reflexivity|].
    apply list_elem_of_In. simpl. tauto.
  - vm_compute. reflexivity.
Defined.

Lemma permuted_rules_same_theorems axiom rules rules' (max_level : Z) s :
  0 ≤ max_level → rules ≡ₚ rules' →
  holds (mkTree (heap (final_state axiom rules max_level)) 0%nat) s →
  holds (mkTree (heap (final_state axiom rules' max_level)) 0%nat) s.
Proof.
  intros Hm Hperm.
  rewrite !holds_core by apply core_final.
  rewrite !final_state_holds by done.
  intros (n & Hn & Hder). exists n. split; [done|].
  eapply derives_subseteq; [|done]. intros r. by rewrite Hperm.
Qed.

(** C4 (amended). For every axiom, bound [max_level >= 0] and permutation of
    the four-rule list, the set of theorem strings held by the returned tree
    is the set obtained with the original rule order.  (Which node becomes
    the parent of a theorem is not preserved.) *)
Theorem rule_order_same_theorems axiom rules' (max_level : Z) t t' s :
  0 ≤ max_level → rules' ≡ₚ RULES →
  generate_theorem_tree_optimized axiom RULES (Some max_level) = Returned t →
  generate_theorem_tree_optimized axiom rules' (Some max_level) = Returned t' →
  holds t s ↔ holds t' s.
Proof.
  intros Hm Hperm ->%generate_returned ->%generate_returned. simpl.
  split; apply permuted_rules_same_theorems; done.
Qed.

Lemma rule_order_same_theorems_witness :
  ∃ t t',
    generate_theorem_tree_optimized "MI" RULES (Some 2) = Returned t ∧
    generate_theorem_tree_optimized "MI" [rule_2; rule_0; rule_1; rule_3]
      (Some 2) = Returned t' ∧
    (holds t "MIIII" ↔ holds t' "MIIII").
Proof.
  eexists _, _. split; [reflexivity|]. split; [reflexivity|].
  apply (rule_order_same_theorems "MI" [rule_2; rule_0; rule_1; rule_3] 2).
  - lia.
  - unfold RULES. etrans; [apply perm_swap|]. apply perm_skip, perm_swap.
  - reflexivity.
  - reflexivity.
Defined.

(** C4, as stated, fails: with the rules in the order Contract-III, Append-U,
    Double-tail, Drop-UU and bound 4, the trees from the axiom MI differ in
    more than the order of siblings: MUIU hangs below MIIIIU with the
    original order and below MUI with the permuted one. *)
Lemma rule_order_changes_parent :
  ∃ rules' t t',
    rules' ≡ₚ RULES ∧
    generate_theorem_tree_optimized "MI" RULES (Some 4) = Returned t ∧
    generate_theorem_tree_optimized "MI" rules' (Some 4) = Returned t' ∧
    parent_theorem (nodes t) "MUIU" = Some "MIIIIU" ∧
    parent_theorem (nodes t') "MUIU" = Some "MUI" ∧
    ¬ same_up_to_sibling_order t t'.
Proof.
  exists [rule_2; rule_0; rule_1; rule_3]. eexists _, _.
  split; [unfold RULES; etrans; [apply perm_swap|];
          apply perm_skip, perm_swap|].
  split; [reflexivity|]. split; [reflexivity|].
  assert (parent_theorem (heap (final_state "MI" RULES 4)) "MUIU"
          = Some "MIIIIU") as H1 by (vm_compute; reflexivity).
  assert (parent_theorem
            (heap (final_state "MI" [rule_2; rule_0; rule_1; rule_3] 4))
            "MUIU" = Some "MUI") as H2 by (vm_compute; reflexivity).
  split; [exact H1|]. split; [exact H2|].
  intros [_ Hpar]. specialize (Hpar "MUIU"). simpl in Hpar.
  rewrite H1, H2 in Hpar. discriminate.
Qed.

(** C5 (amended). Called with a negative bound,
    [generate_theorem_tree_optimized] raises nothing: the loop body never
    runs and the tree made of the root alone is returned. *)
Theorem negative_bound_returns_root axiom rules (max_level : Z) :
  max_level < 0 →
  generate_theorem_tree_optimized axiom rules (Some max_level)
  = Returned (mkTree [new_node axiom 0] 0%nat).
Proof.
  intros Hm. unfold generate_theorem_tree_optimized, final_state, weight.
  simpl. replace (Z.to_nat (max_level - 0)) with 0%nat by lia. done.
Qed.

Lemma negative_bound_returns_root_witness :
  generate_theorem_tree_optimized "MI" RULES (Some (-3))
  = Returned (mkTree [new_node "MI" 0] 0%nat).
Proof. apply (negative_bound_returns_root "MI" RULES (-3)). lia. Defined.

(** C5, as stated, fails: with the bound -1 the call returns a tree, it does
    not raise. *)
Lemma negative_bound_not_rejected :
  generate_theorem_tree_optimized "MI" RULES (Some (-1))
  = Returned (mkTree [mkNode "MI" 0 None []] 0%nat) ∧
  ¬ ∃ exn, generate_theorem_tree_optimized "MI" RULES (Some (-1))
           = Raised exn.
Proof. split; [reflexivity|]. intros [exn Hexn]. discriminate. Qed.

(** C6 (amended). For every string [s] other than M and every rule of the
    four, a rule applicable to [s] returns a string different from [s].
    (Double-tail is applicable to M and returns M, see
    [rule_1_M_unchanged].) *)
Theorem applicable_rule_changes_string (r : rule) (s s' : string) :
  r ∈ RULES → s ≠ "M" → r s = Some s' → s' ≠ s.
Proof.
  intros Hr Hs Hrs. apply length_neq. unfold RULES in Hr.
  repeat (apply elem_of_cons in Hr as [->|Hr]); [..|by apply elem_of_nil in Hr].
  - unfold rule_0 in Hrs. destruct (PyStr.endswith "I" s); [|done].
    inversion Hrs. rewrite length_append. simpl. lia.
  - unfold rule_1, PyStr.startswith in Hrs.
    destruct s as [|c x]; [done|]. cbn [String.prefix] in Hrs.
    destruct (Ascii.ascii_dec _ c) as [<-|]; [|done].
    destruct x as [|c' x]; [done|].
    cbn [String.prefix PyStr.slice_from] in Hrs. inversion Hrs.
    rewrite length_append. simpl. lia.
  - unfold rule_2 in Hrs.
    destruct (PyStr.contains "III" s) eqn:Hc; [|done]. inversion Hrs.
    pose proof (length_replace_first "III" "U" s Hc) as Hlen.
    simpl in Hlen. lia.
  - unfold rule_3 in Hrs.
    destruct (PyStr.contains "UU" s) eqn:Hc; [|done]. inversion Hrs.
    pose proof (length_replace_first "UU" "" s Hc) as Hlen.
    simpl in Hlen. lia.
Qed.

Lemma applicable_rule_changes_string_witness : "MIIII" ≠ "MII".
Proof.
  apply (applicable_rule_changes_string rule_1 "MII" "MIIII").
  - unfold RULES. apply list_elem_of_In. simpl. tauto.
  - discriminate.
  - reflexivity.
Defined.

(** C6, as stated, fails: Double-tail is applicable to M and its output is
    M again. *)
Lemma rule_1_M_unchanged :
  rule_1 ∈ RULES ∧ rule_1 "M" = Some "M".
Proof. split; [|reflexivity]. unfold RULES. apply list_elem_of_In. simpl. tauto. Qed.

(** C7. With the axiom MI, the four rules and the bound 1, the result is the
    root MI at level 0 with exactly two children, MIU (from Append-U) and
    MII (from Double-tail), both at level 1 and without children;
    Contract-III and Drop-UU do not apply to MI. *)
Theorem generate_MI_depth_1 :
  generate_theorem_tree_optimized "MI" [rule_0; rule_1; rule_2; rule_3]
    (Some 1)
  = Returned (mkTree [mkNode "MI" 0 None [1%nat; 2%nat];
                      mkNode "MIU" 1 (Some 0%nat) [];
                      mkNode "MII" 1 (Some 0%nat) []] 0%nat)
  ∧ rule_0 "MI" = Some "MIU" ∧ rule_1 "MI" = Some "MII"
  ∧ rule_2 "MI" = None ∧ rule_3 "MI" = None.
Proof. repeat split; vm_compute; reflexivity. Qed.

(** C8. With the axiom MI, the four rules and a bound [max_level >= 3], the
    returned tree has a node holding MUI at level 3, and
    [get_path_to_root] of that node is MI, MII, MIIII, MUI. *)
Theorem generate_MI_path_MUI (max_level : Z) :
  3 ≤ max_level →
  ∃ t i nd,
    generate_theorem_tree_optimized "MI" [rule_0; rule_1; rule_2; rule_3]
      (Some max_level) = Returned t ∧
    in_tree t i ∧ nodes t !! i = Some nd ∧
    theorem nd = "MUI" ∧ level nd = 3 ∧
    get_path_to_root (nodes t) i = Some ["MI"; "MII"; "MIIII"; "MUI"].
Proof.
  intros Hm.
  pose proof (final_state_extends RULES "MI" 3 max_level Hm) as Hext.
  assert (heap (final_state "MI" RULES 3) !! 10%nat
          = Some (mkNode "MUI" 3 (Some 5%nat) [])) as H10
    by (vm_compute; reflexivity).
  assert (get_path_to_root (heap (final_state "MI" RULES 3)) 10
          = Some ["MI"; "MII"; "MIIII"; "MUI"]) as Hpath
    by (vm_compute; reflexivity).
  destruct (Hext _ _ H10) as (nd & Hnd & Ht & Hl & _).
  exists (mkTree (heap (final_state "MI" RULES max_level)) 0%nat), 10%nat, nd.
  split; [done|]. split; [|split; [done|]].
  - eapply core_in_tree; [apply core_final|]. by eapply lookup_lt_Some.
  - split; [done|]. split; [done|].
    by eapply get_path_to_root_extends.
Qed.

Lemma generate_MI_path_MUI_witness :
  ∃ t i nd,
    generate_theorem_tree_optimized "MI" [rule_0; rule_1; rule_2; rule_3]
      (Some 4) = Returned t ∧
    in_tree t i ∧ nodes t !! i = Some nd ∧
    theorem nd = "MUI" ∧ level nd = 3 ∧
    get_path_to_root (nodes t) i = Some ["MI"; "MII"; "MIIII"; "MUI"].
Proof. apply (generate_MI_path_MUI 4). lia. Defined.

Lemma apply_rule_inapplicable c l st r cur :
  heap st !! c = Some cur → r (theorem cur) = None → apply_rule c l st r = st.
Proof. intros Hc Hr. unfold apply_rule. by rewrite Hc, Hr. Qed.

Lemma expand_empty_axiom st :
  heap st !! 0%nat = Some (new_node "" 0) → expand RULES 0%nat 0 st = st.
Proof.
  intros H0. unfold expand, RULES. cbn [foldl].
  by rewrite !(apply_rule_inapplicable _ _ _ _ _ H0).
Qed.

Lemma final_state_empty_axiom (max_level : Z) :
  heap (final_state "" RULES max_level) = [new_node "" 0].
Proof.
  unfold final_state. destruct (weight _ _ _) as [|fuel]; [done|].
  cbn [bfs_loop]. unfold step. cbn [init_state alloc queue heap seen_theorems].
  case_decide; [|done]. rewrite expand_empty_axiom by done.
  destruct fuel; done.
Qed.

(** C9. With the empty string as axiom, the four rules and any bound
    [max_level >= 0], the call raises nothing and returns the root alone,
    holding the empty string, without children: no rule applies to the empty
    string. *)
Theorem generate_empty_axiom (max_level : Z) :
  0 ≤ max_level →
  generate_theorem_tree_optimized "" [rule_0; rule_1; rule_2; rule_3]
    (Some max_level)
  = Returned (mkTree [mkNode "" 0 None []] 0%nat)
  ∧ ∀ r, r ∈ RULES → r "" = None.
Proof.
  intros _. split.
  - unfold generate_theorem_tree_optimized. simpl default.
    cbv zeta. fold RULES. by rewrite final_state_empty_axiom.
  - intros r Hr. unfold RULES in Hr.
    repeat (apply elem_of_cons in Hr as [->|Hr]); try done.
    by apply elem_of_nil in Hr.
Qed.

Lemma generate_empty_axiom_witness :
  generate_theorem_tree_optimized "" [rule_0; rule_1; rule_2; rule_3] (Some 5)
  = Returned (mkTree [mkNode "" 0 None []] 0%nat)
  ∧ ∀ r, r ∈ RULES → r "" = None.
Proof. apply (generate_empty_axiom 5). lia. Defined.

(** C10. A call that omits the bound is a call with the bound 10. *)
Theorem generate_default_bound axiom rules :
  generate_theorem_tree_optimized axiom rules None
  = generate_theorem_tree_optimized axiom rules (Some 10).
Proof. reflexivity. Qed.

End Claims.

(** ** What the rules do to a string *)

Section Rules.
Implicit Types (s p q old new : string).

Lemma append_cons c s1 s2 : String c s1 +:+ s2 = String c (s1 +:+ s2).
Proof. reflexivity. Qed.

Lemma append_nil_l s : "" +:+ s = s.
Proof. reflexivity. Qed.

Lemma append_assoc s1 s2 s3 : (s1 +:+ s2) +:+ s3 = s1 +:+ (s2 +:+ s3).
Proof.
  induction s1 as [|c s1 IH]; [done|]. rewrite !append_cons. by rewrite IH.
Qed.

Lemma append_nil_r s : s +:+ "" = s.
Proof. induction s as [|c s IH]; [done|]. rewrite append_cons. by rewrite IH. Qed.

Lemma append_inj_length s1 s2 t1 t2 :
  s1 +:+ t1 = s2 +:+ t2 → String.length s1 = String.length s2 →
  s1 = s2 ∧ t1 = t2.
Proof.
  revert s2. induction s1 as [|c s1 IH]; intros [|c' s2];
    rewrite ?append_cons, ?append_nil_l; simpl; try done.
  intros [= -> Heq] [= Hlen]. destruct (IH _ Heq Hlen) as [-> ->]. done.
Qed.

Lemma prefix_spec p s : String.prefix p s = true ↔ ∃ q, s = p +:+ q.
Proof.
  revert s. induction p as [|a p IH]; intros s.
  - destruct s; simpl; split; eauto.
  - destruct s as [|c s]; cbn [String.prefix].
    + split; [done|]. by intros [q ?].
    + destruct (Ascii.ascii_dec a c) as [->|Hne].
      * rewrite IH. split; intros [q Hq]; exists q;
          rewrite ?append_cons in *; congruence.
      * split; [done|]. intros [q Hq]. rewrite append_cons in Hq. congruence.
Qed.

Lemma slice_from_append p q :
  PyStr.slice_from (String.length p) (p +:+ q) = q.
Proof.
  induction p as [|a p IH]; [by destruct q|].
  rewrite append_cons. exact IH.
Qed.

Lemma prefix_slice_from p s :
  String.prefix p s = true → s = p +:+ PyStr.slice_from (String.length p) s.
Proof.
  intros [q Hq]%prefix_spec. rewrite Hq at 2. by rewrite slice_from_append.
Qed.

Lemma substring_slice_from n s :
  s = String.substring 0 n s +:+ PyStr.slice_from n s.
Proof.
  revert s. induction n as [|n IH]; intros [|c s]; try done.
  cbn [String.substring PyStr.slice_from]. rewrite append_cons.
  by rewrite <- IH.
Qed.

Lemma endswith_spec p s : PyStr.endswith p s = true ↔ ∃ q, s = q +:+ p.
Proof.
  unfold PyStr.endswith. rewrite andb_true_iff, Nat.leb_le, String.eqb_eq.
  split.
  - intros [_ Hp].
    pose proof (substring_slice_from
                  (String.length s - String.length p) s) as Hs.
    rewrite Hp in Hs. eauto.
  - intros [q ->]. rewrite length_append. split; [lia|].
    replace (String.length q + String.length p - String.length p)%nat
      with (String.length q) by lia.
    apply slice_from_append.
Qed.

Lemma contains_unfold old s :
  PyStr.contains old s =
    if String.prefix old s then true
    else match s with
         | EmptyString => false
         | String _ s' => PyStr.contains old s'
         end.
Proof. by destruct s. Qed.

Lemma replace_first_unfold old new s :
  PyStr.replace_first old new s =
    if String.prefix old s
    then new +:+ PyStr.slice_from (String.length old) s
    else match s with
         | EmptyString => EmptyString
         | String c s' => String c (PyStr.replace_first old new s')
         end.
Proof. by destruct s. Qed.

Lemma contains_spec old s :
  PyStr.contains old s = true ↔ ∃ a b, s = a +:+ old +:+ b.
Proof.
  split.
  - induction s as [|c s IH]; rewrite contains_unfold;
      destruct (String.prefix old _) eqn:Hp; try done.
    + apply prefix_spec in Hp as [q ->]. by exists "", q.
    + apply prefix_spec in Hp as [q ->]. by exists "", q.
    + intros (a & b & ->)%IH. by exists (String c a), b.
  - intros (a & b & ->). induction a as [|c a IH]; rewrite contains_unfold.
    + rewrite append_nil_l.
      replace (String.prefix old (old +:+ b)) with true; [done|].
      symmetry. apply prefix_spec. by exists b.
    + rewrite append_cons. destruct (String.prefix old _); [done|]. exact IH.
Qed.

(** The occurrence replaced by [replace_first] is the leftmost one. *)
Lemma replace_first_spec old new s :
  PyStr.contains old s = true →
  ∃ a b, s = a +:+ old +:+ b ∧
         PyStr.replace_first old new s = a +:+ new +:+ b ∧
         ∀ a' b', s = a' +:+ old +:+ b' →
                  (String.length a ≤ String.length a')%nat.
Proof.
  induction s as [|c s IH]; rewrite contains_unfold, replace_first_unfold;
    destruct (String.prefix old _) eqn:Hp; try done.
  - intros _. eexists "", _. rewrite !append_nil_l.
    split; [by apply prefix_slice_from|]. split; [done|]. intros; simpl; lia.
  - intros _. eexists "", _. rewrite !append_nil_l.
    split; [by apply prefix_slice_from|]. split; [done|]. intros; simpl; lia.
  - intros (a & b & Hs & Hr & Hleft)%IH. exists (String c a), b.
    rewrite !append_cons, <- Hs, Hr.
    repeat split; try done. intros [|c' a'] b' Heq.
    + exfalso. rewrite append_nil_l in Heq.
      assert (String.prefix old (String c s) = true) as Hp'; [|congruence].
      apply prefix_spec. by exists b'.
    + rewrite append_cons in Heq. inversion Heq as [[Hc Hs']].
      specialize (Hleft _ _ Hs'). simpl. lia.
Qed.

End Rules.

(** ** The four rules, and the count of I they keep away from multiples
       of three *)

Section RuleSet.
Implicit Types (s x a b : string).

(** X1. [rule_0] applies exactly to the strings that end in I, and appends
    U. *)
Theorem rule_0_spec s :
  match rule_0 s with
  | Some s' => (∃ p, s = p +:+ "I") ∧ s' = s +:+ "U"
  | None => ∀ p, s ≠ p +:+ "I"
  end.
Proof.
  unfold rule_0. destruct (PyStr.endswith "I" s) eqn:He.
  - apply endswith_spec in He. done.
  - intros p Hp. assert (PyStr.endswith "I" s = true); [|congruence].
    apply endswith_spec. eauto.
Qed.

(** X2. [rule_1] applies exactly to the strings Mx, and gives Mxx. *)
Theorem rule_1_spec s :
  match rule_1 s with
  | Some s' => ∃ x, s = "M" +:+ x ∧ s' = "M" +:+ x +:+ x
  | None => ∀ x, s ≠ "M" +:+ x
  end.
Proof.
  unfold rule_1, PyStr.startswith. destruct (String.prefix "M" s) eqn:Hp.
  - apply prefix_spec in Hp as [x ->]. exists x. split; [done|].
    rewrite !append_cons, !append_nil_l. by destruct x.
  - intros x Hx. assert (String.prefix "M" s = true); [|congruence].
    apply prefix_spec. eauto.
Qed.

(** X3. [rule_2] applies exactly to the strings in which III occurs, and
    replaces the leftmost occurrence by U. *)
Theorem rule_2_spec s :
  match rule_2 s with
  | Some s' =>
      ∃ a b, s = a +:+ "III" +:+ b ∧ s' = a +:+ "U" +:+ b ∧
             ∀ a' b', s = a' +:+ "III" +:+ b' →
                      (String.length a ≤ String.length a')%nat
  | None => ∀ a b, s ≠ a +:+ "III" +:+ b
  end.
Proof.
  unfold rule_2. destruct (PyStr.contains "III" s) eqn:Hc.
  - by apply replace_first_spec.
  - intros a b Hs. assert (PyStr.contains "III" s = true); [|congruence].
    apply contains_spec. eauto.
Qed.

(** X4. [rule_3] applies exactly to the strings in which UU occurs, and
    removes the leftmost occurrence. *)
Theorem rule_3_spec s :
  match rule_3 s with
  | Some s' =>
      ∃ a b, s = a +:+ "UU" +:+ b ∧ s' = a +:+ b ∧
             ∀ a' b', s = a' +:+ "UU" +:+ b' →
                      (String.length a ≤ String.length a')%nat
  | None => ∀ a b, s ≠ a +:+ "UU" +:+ b
  end.
Proof.
  unfold rule_3. destruct (PyStr.contains "UU" s) eqn:Hc.
  - destruct (replace_first_spec "UU" "" s Hc) as (a & b & Hs & Hr & Hleft).
    exists a, b. by rewrite Hr, append_nil_l.
  - intros a b Hs. assert (PyStr.contains "UU" s = true); [|congruence].
    apply contains_spec. eauto.
Qed.

Lemma count_char_append c s1 s2 :
  count_char c (s1 +:+ s2) = (count_char c s1 + count_char c s2)%nat.
Proof.
  induction s1 as [|c' s1 IH]; [done|]. rewrite append_cons. simpl.
  rewrite IH. lia.
Qed.

Lemma rules_count (r : rule) s s' :
  r ∈ RULES → r s = Some s' →
  count_char "I"%char s' = count_char "I"%char s ∨
  count_char "I"%char s' = (2 * count_char "I"%char s)%nat ∨
  (count_char "I"%char s' + 3)%nat = count_char "I"%char s.
Proof.
  intros Hr Hrs. unfold RULES in Hr.
  repeat (apply elem_of_cons in Hr as [->|Hr]); [..|by apply elem_of_nil in Hr].
  - unfold rule_0 in Hrs. destruct (PyStr.endswith "I" s); [|done].
    inversion Hrs. left. rewrite count_char_append. simpl. lia.
  - unfold rule_1, PyStr.startswith in Hrs.
    destruct (String.prefix "M" s) eqn:Hp; [|done].
    apply prefix_spec in Hp as [x ->]. inversion Hrs. right. left.
    rewrite !append_cons, !append_nil_l. simpl.
    rewrite count_char_append. destruct x; simpl; lia.
  - unfold rule_2 in Hrs. destruct (PyStr.contains "III" s) eqn:Hc; [|done].
    destruct (replace_first_spec "III" "U" s Hc) as (a & b & -> & Hr' & _).
    inversion Hrs. rewrite Hr'. right. right.
    rewrite !count_char_append. simpl. lia.
  - unfold rule_3 in Hrs. destruct (PyStr.contains "UU" s) eqn:Hc; [|done].
    destruct (replace_first_spec "UU" "" s Hc) as (a & b & -> & Hr' & _).
    inversion Hrs. rewrite Hr'. left.
    rewrite !count_char_append. simpl. lia.
Qed.

Lemma double_mod_3 (c : nat) : (c mod 3 ≠ 0 → (2 * c) mod 3 ≠ 0)%nat.
Proof.
  rewrite <- (Nat.Div0.mul_mod_idemp_r 2 c 3).
  pose proof (Nat.mod_upper_bound c 3 ltac:(lia)) as Hlt.
  destruct (c mod 3)%nat as [|[|[|r]]]; simpl; lia.
Qed.

Lemma minus_3_mod_3 (c : nat) : ((c + 3) mod 3 ≠ 0 → c mod 3 ≠ 0)%nat.
Proof.
  rewrite <- (Nat.Div0.add_mod_idemp_r c 3 3). simpl. by rewrite Nat.add_0_r.
Qed.

Lemma rules_keep_count (r : rule) s s' :
  r ∈ RULES → r s = Some s' →
  (count_char "I"%char s mod 3 ≠ 0)%nat →
  (count_char "I"%char s' mod 3 ≠ 0)%nat.
Proof.
  intros Hr Hrs. destruct (rules_count r s s' Hr Hrs) as [->|[->|<-]].
  - done.
  - apply double_mod_3.
  - apply minus_3_mod_3.
Qed.

Lemma derives_keep_count axiom n s :
  (count_char "I"%char axiom mod 3 ≠ 0)%nat →
  derives RULES axiom n s → (count_char "I"%char s mod 3 ≠ 0)%nat.
Proof.
  intros Hax. induction 1 as [|n s r s' _ IH Hr Hrs]; [done|].
  by eapply rules_keep_count.
Qed.

End RuleSet.

(** ** More on the tree that [generate_theorem_tree_optimized] returns *)

Section Engine.
Implicit Types (axiom : string) (rules : list rule) (t : tree).

Lemma holds_derives axiom rules max_level t s :
  generate_theorem_tree_optimized axiom rules max_level = Returned t →
  holds t s → ∃ n, derives rules axiom n s.
Proof.
  intros ->%generate_returned (i & nd & _ & Hi & <-). simpl in Hi.
  eexists. eapply core_sound; [apply core_final|done].
Qed.

(** X5. With the four rules, when the number of I in the axiom is not a
    multiple of three, the number of I in every string of the returned tree
    is not a multiple of three either. *)
Theorem generate_keeps_I_count axiom max_level t s :
  (count_char "I"%char axiom mod 3 ≠ 0)%nat →
  generate_theorem_tree_optimized axiom RULES max_level = Returned t →
  holds t s → (count_char "I"%char s mod 3 ≠ 0)%nat.
Proof.
  intros Hax Hgen [n Hder]%(holds_derives _ _ _ _ _ Hgen).
  by eapply derives_keep_count.
Qed.

Lemma generate_keeps_I_count_witness :
  ∃ t, generate_theorem_tree_optimized "MI" RULES (Some 1) = Returned t ∧
       holds t "MII" ∧ (count_char "I"%char "MII" mod 3 ≠ 0)%nat.
Proof.
  eexists. split; [reflexivity|].
  assert (holds (mkTree (heap (final_state "MI" RULES 1)) 0%nat) "MII") as Hh.
  { exists 2%nat, (mkNode "MII" 1 (Some 0%nat) []).
    split; [|split; [vm_compute; reflexivity|reflexivity]].
    apply (in_tree_child _ 0%nat (mkNode "MI" 0 None [1%nat; 2%nat]));
      [apply (in_tree_root (mkTree _ _))|vm_compute; reflexivity|].
    apply list_elem_of_In. simpl. tauto. }
  split; [exact Hh|].
  eapply (generate_keeps_I_count "MI" (Some 1)); [|reflexivity|exact Hh].
  vm_compute. discriminate.
Defined.

(** X6. From the axiom MI the four rules never produce MU, whatever the
    bound. *)
Theorem generate_never_MU max_level t :
  generate_theorem_tree_optimized AXIOM RULES max_level = Returned t →
  ¬ holds t "MU".
Proof.
  intros Hgen [n Hder]%(holds_derives _ _ _ _ _ Hgen).
  apply derives_keep_count in Hder; [|vm_compute; discriminate].
  apply Hder. reflexivity.
Qed.

Lemma generate_never_MU_witness :
  ∃ t, generate_theorem_tree_optimized AXIOM RULES (Some 3) = Returned t ∧
       ¬ holds t "MU".
Proof.
  eexists. split; [reflexivity|].
  apply (generate_never_MU (Some 3)). reflexivity.
Defined.

(** X7. For a bound [max_level >= 0], the returned tree holds exactly the
    strings that are derived from the axiom by at most [max_level] rule
    applications. *)
Theorem generate_holds_derivable axiom rules (max_level : Z) t s :
  0 ≤ max_level →
  generate_theorem_tree_optimized axiom rules (Some max_level) = Returned t →
  holds t s ↔ ∃ n, Z.of_nat n ≤ max_level ∧ derives rules axiom n s.
Proof.
  intros Hm ->%generate_returned. simpl.
  rewrite holds_core by apply core_final. by apply final_state_holds.
Qed.

Lemma generate_holds_derivable_witness :
  ∃ t, generate_theorem_tree_optimized "MI" RULES (Some 2) = Returned t ∧
       (holds t "MIIII" ↔
        ∃ n, Z.of_nat n ≤ 2 ∧ derives RULES "MI" n "MIIII").
Proof.
  eexists. split; [reflexivity|].
  apply (generate_holds_derivable "MI" RULES 2); [lia|reflexivity].
Defined.

(** X8. The level of a node is the length of a shortest derivation of its
    theorem: the theorem is derived in [level] rule applications, and in no
    fewer. *)
Theorem generate_level_shortest axiom rules max_level t i nd :
  generate_theorem_tree_optimized axiom rules max_level = Returned t →
  in_tree t i → nodes t !! i = Some nd →
  derives rules axiom (Z.to_nat (level nd)) (theorem nd) ∧
  ∀ n, derives rules axiom n (theorem nd) → level nd ≤ Z.of_nat n.
Proof.
  intros ->%generate_returned _ Hi. simpl in Hi.
  set (m := default max_level_default max_level) in *.
  destruct (at_head_final rules axiom m) as [k Hhead].
  pose proof (head_core _ _ _ _ _ Hhead) as Hcore.
  split; [by eapply core_sound|]. intros n Hder.
  pose proof (core_depth _ _ _ _ Hcore _ _ Hi) as Hd.
  destruct (decide (Z.of_nat n ≤ m)) as [Hn|Hn]; [|lia].
  destruct (at_head_complete rules axiom m k _ n _ Hhead
              (loop_exits _ _ _) Hder Hn) as (j & nj & Hj & Ht & Hl).
  assert (j = i) as -> by (by eapply core_uniq).
  assert (nj = nd) as -> by congruence. done.
Qed.

Lemma generate_level_shortest_witness :
  ∃ t nd, generate_theorem_tree_optimized "MI" RULES (Some 1) = Returned t ∧
    nodes t !! 2%nat = Some nd ∧
    derives RULES "MI" (Z.to_nat (level nd)) (theorem nd) ∧
    ∀ n, derives RULES "MI" n (theorem nd) → level nd ≤ Z.of_nat n.
Proof.
  eexists _, (mkNode "MII" 1 (Some 0%nat) []).
  split; [reflexivity|]. split; [vm_compute; reflexivity|].
  eapply (generate_level_shortest "MI" RULES (Some 1) _ 2%nat).
  - reflexivity.
  - apply (in_tree_child _ 0%nat (mkNode "MI" 0 None [1%nat; 2%nat]));
      [apply (in_tree_root (mkTree _ _))|vm_compute; reflexivity|].
    apply list_elem_of_In. simpl. tauto.
  - vm_compute. reflexivity.
Defined.

Lemma final_state_expanded axiom rules (max_level : Z) i nd r s' :
  heap (final_state axiom rules max_level) !! i = Some nd →
  level nd < max_level → r ∈ rules → r (theorem nd) = Some s' →
  ∃ j nj, heap (final_state axiom rules max_level) !! j = Some nj ∧
          theorem nj = s'.
Proof.
  intros Hi Hl Hr Hrs.
  destruct (at_head_final rules axiom max_level) as [k Hhead].
  assert (i < k)%nat as Hik
    by (eapply expanded_below; [done|apply loop_exits|done..]).
  destruct (head_closed _ _ _ _ _ Hhead i r Hik Hr nd s' Hi Hrs)
    as (j & nj & Hj & Ht & _).
  eauto.
Qed.

(** X9. Every node below the bound is expanded in full: whatever a rule
    makes of its theorem is held by the tree. *)
Theorem generate_expands_below_bound axiom rules (max_level : Z) t i nd r s' :
  generate_theorem_tree_optimized axiom rules (Some max_level) = Returned t →
  in_tree t i → nodes t !! i = Some nd → level nd < max_level →
  r ∈ rules → r (theorem nd) = Some s' →
  holds t s'.
Proof.
  intros ->%generate_returned _ Hi Hl Hr Hrs. simpl in *.
  apply (holds_core rules axiom max_level); [apply core_final|].
  by eapply final_state_expanded.
Qed.

Lemma generate_expands_below_bound_witness :
  ∃ t, generate_theorem_tree_optimized "MI" RULES (Some 1) = Returned t ∧
       holds t "MII".
Proof.
  eexists. split; [reflexivity|].
  eapply (generate_expands_below_bound "MI" RULES 1 _ 0%nat
            (mkNode "MI" 0 None [1%nat; 2%nat]) rule_1 "MII").
  - reflexivity.
  - apply (in_tree_root (mkTree _ _)).
  - vm_compute. reflexivity.
  - simpl. lia.
  - unfold RULES. apply list_elem_of_In. simpl. tauto.
  - reflexivity.
Defined.

(** X10. A node whose level has reached the bound is a leaf. *)
Theorem generate_leaf_at_bound axiom rules (max_level : Z) t i nd :
  generate_theorem_tree_optimized axiom rules (Some max_level) = Returned t →
  in_tree t i → nodes t !! i = Some nd → max_level ≤ level nd →
  is_leaf i (nodes t) = true.
Proof.
  intros ->%generate_returned _ Hi Hl. simpl in *.
  pose proof (core_final rules axiom max_level) as Hcore.
  unfold is_leaf. rewrite Hi. apply bool_decide_eq_true.
  destruct (children nd) as [|c cs] eqn:Hch; [done|]. exfalso.
  destruct (core_children _ _ _ _ Hcore i nd c Hi) as (cn & Hc & Hp);
    [rewrite Hch; by left|].
  assert (c ≠ 0%nat) as Hc0.
  { intros ->. destruct (core_root _ _ _ _ Hcore) as (r & Hr & _ & _ & Hpr).
    congruence. }
  destruct (core_parent _ _ _ _ Hcore c cn Hc Hc0)
    as (p & pn & Hp' & _ & Hpn & Hlv & _).
  assert (p = i) as -> by congruence. assert (pn = nd) as -> by congruence.
  pose proof (core_depth _ _ _ _ Hcore _ _ Hc).
  pose proof (core_depth _ _ _ _ Hcore _ _ Hi). lia.
Qed.

Lemma generate_leaf_at_bound_witness :
  ∃ t, generate_theorem_tree_optimized "MI" RULES (Some 1) = Returned t ∧
       is_leaf 2%nat (nodes t) = true.
Proof.
  eexists. split; [reflexivity|].
  eapply (generate_leaf_at_bound "MI" RULES 1 _ 2%nat
            (mkNode "MII" 1 (Some 0%nat) [])).
  - reflexivity.
  - apply (in_tree_child _ 0%nat (mkNode "MI" 0 None [1%nat; 2%nat]));
      [apply (in_tree_root (mkTree _ _))|vm_compute; reflexivity|].
    apply list_elem_of_In. simpl. tauto.
  - vm_compute. reflexivity.
  - simpl. lia.
Defined.

(** X11. A larger bound only adds to the tree: every node of the tree for
    the smaller bound is a node of the tree for the larger one, with the
    same theorem, level and parent, and its children come first among the
    children it has there. *)
Theorem generate_bound_monotone axiom rules (m m' : Z) t t' i nd :
  m ≤ m' →
  generate_theorem_tree_optimized axiom rules (Some m) = Returned t →
  generate_theorem_tree_optimized axiom rules (Some m') = Returned t' →
  in_tree t i → nodes t !! i = Some nd →
  ∃ nd', in_tree t' i ∧ nodes t' !! i = Some nd' ∧
         theorem nd' = theorem nd ∧ level nd' = level nd ∧
         parent nd' = parent nd ∧ children nd `prefix_of` children nd'.
Proof.
  intros Hm ->%generate_returned ->%generate_returned _ Hi. simpl in *.
  destruct (final_state_extends rules axiom m m' Hm _ _ Hi)
    as (nd' & Hi' & ? & ? & ? & ?).
  exists nd'. repeat split; try done.
  eapply core_in_tree; [apply core_final|]. by eapply lookup_lt_Some.
Qed.

Lemma generate_bound_monotone_witness :
  ∃ t t' nd',
    generate_theorem_tree_optimized "MI" RULES (Some 0) = Returned t ∧
    generate_theorem_tree_optimized "MI" RULES (Some 1) = Returned t' ∧
    in_tree t' 0%nat ∧ nodes t' !! 0%nat = Some nd' ∧
    theorem nd' = "MI" ∧ level nd' = 0 ∧ parent nd' = None ∧
    [] `prefix_of` children nd'.
Proof.
  eexists _, _. 
  destruct (generate_bound_monotone "MI" RULES 0 1 _ _ 0%nat
              (mkNode "MI" 0 None []) ltac:(lia) eq_refl eq_refl)
    as (nd' & H).
  - apply (in_tree_root (mkTree _ _)).
  - vm_compute. reflexivity.
  - exists nd'. split; [reflexivity|]. split; [reflexivity|]. exact H.
Defined.

End Engine.

(** ** Properties of the store that every new child keeps *)

Section Invariant.
Context (rules : list rule) (axiom : string) (max_level : Z).
Context (P : store → Prop).
Hypothesis P_init : P [new_node axiom 0].
Hypothesis P_grown : ∀ c l tried st cur r s,
  in_body rules axiom max_level c l tried st →
  heap st !! c = Some cur → r ∈ rules → r (theorem cur) = Some s →
  s ∉ seen_theorems st →
  P (heap st) → P (grown (heap st) c s (l + 1)).

Lemma at_head_pop k st st' :
  at_head rules axiom max_level k st →
  step rules max_level st = Some st' →
  ∃ l rest,
    in_body rules axiom max_level k l []
      (mkState (heap st) (seen_theorems st) rest) ∧
    st' = expand rules k l (mkState (heap st) (seen_theorems st) rest).
Proof.
  intros [Hcore Hq Hspan Hcl] Hstep. unfold step in Hstep.
  destruct (queue st) as [|[c l] rest] eqn:Hqueue; [done|].
  case_decide as Hlt; [|done]. inversion Hstep as [Hst']; clear Hstep.
  assert (entries (heap st) !! k = Some (c, l)) as Hk.
  { rewrite <- (Nat.add_0_r k), <- lookup_drop, <- Hq. done. }
  assert (rest = drop (S k) (entries (heap st))) as Hrest.
  { rewrite (drop_S _ _ _ Hk) in Hq. congruence. }
  rewrite entries_lookup in Hk.
  destruct (heap st !! k) as [cur|] eqn:Hcur; [|done].
  simpl in Hk. inversion Hk; subst c l. clear Hk.
  exists (level cur), rest. split; [|done].
  split; simpl; try done.
  - by apply core_requeue.
  - by exists cur.
  - intros j nj Hj. by eapply (Hspan k j).
  - intros r Hr. by apply elem_of_nil in Hr.
Qed.

Lemma invariant_expand todo c l tried st :
  in_body rules axiom max_level c l tried st →
  (∀ r, r ∈ todo → r ∈ rules) →
  P (heap st) → P (heap (expand todo c l st)).
Proof.
  unfold expand. revert tried st.
  induction todo as [|r todo IH]; intros tried st Hbody Hsub HP; [done|].
  simpl. assert (r ∈ rules) as Hr by (apply Hsub; by left).
  apply (IH (tried ++ [r])).
  - by apply in_body_apply_rule.
  - intros r' Hr'. apply Hsub. by right.
  - destruct (apply_rule_applied c l st r) as [|cur s Hc Hrs Hs]; [done|].
    simpl. by eapply P_grown.
Qed.

Lemma invariant_bfs_loop fuel k st :
  at_head rules axiom max_level k st → P (heap st) →
  P (heap (bfs_loop fuel rules max_level st)).
Proof.
  revert k st. induction fuel as [|fuel IH]; intros k st Hhead HP; [done|].
  simpl. destruct (step rules max_level st) as [st'|] eqn:Hstep; [|done].
  apply (IH (S k)); [by eapply at_head_step|].
  destruct (at_head_pop k st st' Hhead Hstep) as (l & rest & Hbody & ->).
  by eapply invariant_expand.
Qed.

Lemma invariant_final : P (heap (final_state axiom rules max_level)).
Proof. eapply invariant_bfs_loop; [apply at_head_init|exact P_init]. Qed.

End Invariant.

(** ** Parent links are rule applications; paths to the root *)

Section Paths.
Context (rules : list rule) (axiom : string) (max_level : Z).
Implicit Types (st : state) (i : ref).

Lemma final_edges_derived :
  edges_derived rules (heap (final_state axiom rules max_level)).
Proof.
  apply (invariant_final rules axiom max_level (edges_derived rules)).
  - intros [|i] nd p pn Hi Hp; [|done]. simpl in Hi. by inversion Hi; subst.
  - intros c l tried st cur r s Hbody Hc Hr Hrs _ IH i nd p pn Hi Hp Hpn.
    pose proof (body_core _ _ _ _ _ _ _ Hbody) as Hcore.
    apply grown_node in Hi as [(nd0 & Hi & Hti & _ & Hpi & _)|[-> ->]].
    + rewrite Hti. rewrite Hpi in Hp.
      assert (i ≠ 0%nat) as Hi0.
      { intros ->. destruct (core_root _ _ _ _ Hcore) as (rt & ? & _ & _ & ?).
        congruence. }
      destruct (core_parent _ _ _ _ Hcore i nd0 Hi Hi0)
        as (p' & pn0 & Hp' & _ & Hpn0 & _).
      assert (p' = p) as -> by congruence.
      apply grown_node in Hpn as [(pn1 & Hpn1 & -> & _)|[-> _]].
      * eapply IH; done.
      * apply lookup_lt_Some in Hpn0. lia.
    + simpl in *. inversion Hp; subst p.
      apply grown_node in Hpn as [(pn1 & Hpn1 & -> & _)|[-> _]].
      * assert (pn1 = cur) as -> by congruence. eauto.
      * apply lookup_lt_Some in Hc. lia.
Qed.

Lemma final_children_NoDup p pn :
  heap (final_state axiom rules max_level) !! p = Some pn →
  NoDup (children pn).
Proof.
  revert p pn.
  apply (invariant_final rules axiom max_level
           (λ h, ∀ p pn, h !! p = Some pn → NoDup (children pn))).
  - intros [|p] pn Hp; [|done]. simpl in Hp. inversion Hp; subst. simpl.
    constructor.
  - intros c l tried st cur r s Hbody Hc _ _ _ IH p pn Hp.
    pose proof (body_core _ _ _ _ _ _ _ Hbody) as Hcore.
    apply grown_node in Hp as [(pn0 & Hp & _ & _ & _ & Hch)|[-> ->]];
      [|constructor].
    specialize (IH _ _ Hp). destruct Hch as [->|[-> ->]]; [done|].
    apply NoDup_app. split; [done|]. split; [|apply NoDup_singleton].
    intros x Hx ->%list_elem_of_singleton.
    destruct (core_children _ _ _ _ Hcore _ _ _ Hp Hx) as (cn & Hcn & _).
    apply lookup_lt_Some in Hcn. lia.
Qed.

Lemma walk_up_path (h : store) st :
  h = heap st → core rules axiom max_level st → edges_derived rules h →
  ∀ i nd, h !! i = Some nd →
  ∃ path,
    (∀ fuel acc, (i < fuel)%nat →
       walk_up fuel h (Some i) acc = Some (acc ++ reverse path)) ∧
    head path = Some axiom ∧ last path = Some (theorem nd) ∧
    length path = S (Z.to_nat (level nd)) ∧ derivation rules path.
Proof.
  intros -> Hcore Hedges i. induction (lt_wf i) as [i _ IH]. intros nd Hi.
  destruct (decide (i = 0%nat)) as [->|Hne].
  - destruct (core_root _ _ _ _ Hcore) as (rt & Hrt & Ht & Hl & Hp).
    assert (rt = nd) as -> by congruence.
    exists [axiom]. repeat split.
    + intros [|fuel] acc Hf; [lia|]. simpl. rewrite Hi, Hp, Ht.
      by destruct fuel.
    + by rewrite Ht.
    + by rewrite Hl.
    + constructor.
  - destruct (core_parent _ _ _ _ Hcore i nd Hi Hne)
      as (p & pn & Hp & Hlt & Hpn & Hlv & _).
    destruct (IH p Hlt pn Hpn) as (path & Hwalk & Hhead & Hlast & Hlen & Hder).
    exists (path ++ [theorem nd]). repeat split.
    + intros [|fuel] acc Hf; [lia|]. simpl. rewrite Hi, Hp.
      rewrite Hwalk by lia. by rewrite reverse_snoc, <- app_assoc.
    + apply head_Some in Hhead as [path' ->]. done.
    + apply last_snoc.
    + rewrite length_app, Hlen, Hlv. simpl.
      pose proof (core_depth _ _ _ _ Hcore _ _ Hpn). lia.
    + apply last_Some in Hlast as [path' ->].
      destruct (Hedges i nd p pn Hi Hp Hpn) as (r & Hr & Hrs).
      by eapply derivation_snoc.
Qed.

End Paths.

Section PathClaims.
Implicit Types (axiom : string) (rules : list rule) (t : tree).

(** X12. For every node of the returned tree [get_path_to_root] returns a
    path: it starts with the axiom, ends with the theorem of the node, has
    one string more than the level of the node, and every string but the
    first is the result of a rule on the string before it. *)
Theorem generate_path_to_root axiom rules max_level t i nd :
  generate_theorem_tree_optimized axiom rules max_level = Returned t →
  in_tree t i → nodes t !! i = Some nd →
  ∃ path,
    get_path_to_root (nodes t) i = Some path ∧
    head path = Some axiom ∧ last path = Some (theorem nd) ∧
    length path = S (Z.to_nat (level nd)) ∧ derivation rules path.
Proof.
  intros ->%generate_returned _ Hi. simpl in *.
  set (m := default max_level_default max_level) in *.
  destruct (walk_up_path rules axiom m _ (final_state axiom rules m) eq_refl
              (core_final _ _ _) (final_edges_derived _ _ _) i nd Hi)
    as (path & Hwalk & Hprops).
  exists path. split; [|done].
  unfold get_path_to_root, get_path_to_root_fuel.
  rewrite Hwalk by (by eapply lookup_lt_Some). simpl.
  by rewrite reverse_involutive.
Qed.

Lemma generate_path_to_root_witness :
  ∃ t path,
    generate_theorem_tree_optimized "MI" RULES (Some 1) = Returned t ∧
    get_path_to_root (nodes t) 2 = Some path ∧
    head path = Some "MI" ∧ last path = Some "MII" ∧
    length path = 2%nat ∧ derivation RULES path.
Proof.
  eexists _.
  destruct (generate_path_to_root "MI" RULES (Some 1) _ 2%nat
              (mkNode "MII" 1 (Some 0%nat) []) eq_refl) as (path & H).
  - apply (in_tree_child _ 0%nat (mkNode "MI" 0 None [1%nat; 2%nat]));
      [apply (in_tree_root (mkTree _ _))|vm_compute; reflexivity|].
    apply list_elem_of_In. simpl. tauto.
  - vm_compute. reflexivity.
  - exists path. split; [reflexivity|]. exact H.
Defined.

End PathClaims.

(** ** The size of the tree *)

Lemma sum_pow_shift (r : nat) (ks : list nat) :
  sum_list ((λ k, r ^ S k)%nat <$> ks)
  = (r * sum_list ((λ k, r ^ k)%nat <$> ks))%nat.
Proof.
  induction ks as [|k ks IH]; [simpl; lia|].
  rewrite !fmap_cons. cbn [sum_list sum_list_with]. rewrite IH.
  rewrite Nat.pow_succ_r'. unfold id. lia.
Qed.

Lemma iterations_bound_sum (r d : nat) :
  iterations_bound r (S d) = sum_list ((λ k, r ^ k)%nat <$> seq 0 (S d)).
Proof.
  induction d as [|d IH]; [simpl; lia|].
  change (iterations_bound r (S (S d)))
    with (S (r * iterations_bound r (S d))).
  rewrite IH. change (seq 0 (S (S d))) with (0%nat :: seq 1 (S d)).
  rewrite <- fmap_S_seq, fmap_cons, <- list_fmap_compose.
  cbn [sum_list sum_list_with].
  change ((λ k, r ^ k)%nat ∘ S) with (λ k, r ^ S k)%nat.
  rewrite sum_pow_shift. unfold id. simpl. lia.
Qed.

Section Size.
Context (rules : list rule) (max_level : Z).
Implicit Types (st : state) (c : ref) (l : Z).

Let R := length rules.
Let qw := queue_weight R max_level.
Let w := weight R max_level.

Lemma apply_rule_growth c l st r :
  ∃ n, (n ≤ 1)%nat ∧
    length (heap (apply_rule c l st r)) = (length (heap st) + n)%nat ∧
    qw (queue (apply_rule c l st r)) = (qw (queue st) + n * w (l + 1))%nat.
Proof.
  destruct (apply_rule_applied c l st r) as [|cur s _ _ _].
  - exists 0%nat. lia.
  - exists 1%nat. simpl. rewrite length_grown.
    subst qw w R. rewrite queue_weight_snoc. simpl. lia.
Qed.

Lemma expand_growth todo c l st :
  ∃ n, (n ≤ length todo)%nat ∧
    length (heap (expand todo c l st)) = (length (heap st) + n)%nat ∧
    qw (queue (expand todo c l st)) = (qw (queue st) + n * w (l + 1))%nat.
Proof.
  unfold expand. revert st. induction todo as [|r todo IH]; intros st; simpl.
  - exists 0%nat. lia.
  - destruct (apply_rule_growth c l st r) as (n1 & Hn1 & Hh1 & Hq1).
    destruct (IH (apply_rule c l st r)) as (n2 & Hn2 & Hh2 & Hq2).
    exists (n1 + n2)%nat. rewrite Hh2, Hq2, Hh1, Hq1. lia.
Qed.

Lemma step_measure st st' :
  step rules max_level st = Some st' →
  (length (heap st') + R * qw (queue st')
   ≤ length (heap st) + R * qw (queue st))%nat.
Proof.
  unfold step. destruct (queue st) as [|[c l] rest]; [done|].
  case_decide as Hl; [|done]. intros [= <-].
  destruct (expand_growth rules c l
              (mkState (heap st) (seen_theorems st) rest))
    as (n & Hn & -> & ->).
  simpl. change (qw ((c, l) :: rest)) with (w l + qw rest)%nat.
  pose proof (weight_below rules max_level l Hl) as Hw.
  change (weight (length rules) max_level) with w in Hw.
  change (length rules) with R in Hw, Hn.
  change (weight R max_level l) with (w l). rewrite Hw. nia.
Qed.

Lemma bfs_loop_measure fuel st :
  (length (heap (bfs_loop fuel rules max_level st))
   ≤ length (heap st) + R * qw (queue st))%nat.
Proof.
  revert st. induction fuel as [|fuel IH]; intros st; simpl; [lia|].
  destruct (step rules max_level st) as [st'|] eqn:Hstep; [|lia].
  etrans; [apply IH|]. by apply step_measure.
Qed.

Lemma final_state_size axiom :
  (length (heap (final_state axiom rules max_level))
   ≤ iterations_bound R (S (Z.to_nat max_level)))%nat.
Proof.
  unfold final_state. etrans; [apply bfs_loop_measure|].
  subst qw R. simpl. unfold weight.
  replace (max_level - 0) with max_level by lia. lia.
Qed.

End Size.

Section SizeClaims.
Implicit Types (axiom : string) (rules : list rule) (t : tree).

(** X13. With [r] rules and the bound [max_level], the returned tree has at
    most 1 + r + r^2 + ... + r^max_level nodes (one node for a negative
    bound). *)
Theorem generate_size_bound axiom rules (max_level : Z) t :
  generate_theorem_tree_optimized axiom rules (Some max_level) = Returned t →
  (length (nodes t)
   ≤ sum_list ((λ k, length rules ^ k)%nat
                 <$> seq 0 (S (Z.to_nat max_level))))%nat.
Proof.
  intros ->%generate_returned. cbn [nodes default].
  rewrite <- iterations_bound_sum. apply final_state_size.
Qed.

Lemma generate_size_bound_witness :
  ∃ t, generate_theorem_tree_optimized "MI" RULES (Some 2) = Returned t ∧
       (length (nodes t) ≤ 1 + 4 + 16)%nat.
Proof.
  eexists. split; [reflexivity|].
  apply (generate_size_bound "MI" RULES 2). reflexivity.
Defined.

End SizeClaims.

(** ** The depth-first collection *)

Section Dfs.
Context (h : store) (Hlinked : linked h) (top : Z).
Hypothesis Hlevel : ∀ c cn p pn,
  h !! c = Some cn → parent cn = Some p → h !! p = Some pn →
  level cn = level pn + 1.
Hypothesis Htop : ∀ i nd, h !! i = Some nd → level nd ≤ top.
Implicit Types (i j c p : ref) (l : list ref).

Lemma ancestor_le a d : ancestor h a d → (a ≤ d)%nat.
Proof.
  induction 1 as [|d nd p Hd Hp _ IH]; [done|].
  destruct (linked_parent h Hlinked d nd p Hd Hp) as [Hlt _]. lia.
Qed.

Lemma ancestor_comparable a b j :
  ancestor h a j → ancestor h b j → ancestor h a b ∨ ancestor h b a.
Proof.
  induction 1 as [|d nd p Hd Hp Ha IH]; intros Hb; [by right|].
  inversion Hb as [|d' nd' p' Hd' Hp' Hb']; subst.
  - left. by eapply ancestor_up.
  - apply IH. congruence.
Qed.

Lemma ancestor_below_child i c cn j :
  h !! c = Some cn → parent cn = Some i → ancestor h c j → ancestor h i j.
Proof.
  intros Hc Hp. induction 1 as [|d nd p Hd Hdp _ IH].
  - eapply ancestor_up; [done..|constructor].
  - by eapply ancestor_up.
Qed.

Lemma ancestor_descend i j :
  ancestor h i j → j ≠ i →
  ∃ c cn, h !! c = Some cn ∧ parent cn = Some i ∧ ancestor h c j.
Proof.
  induction 1 as [|d nd p Hd Hp Hanc IH]; [done|]. intros _.
  destruct (decide (p = i)) as [->|Hne].
  - exists d, nd. repeat split; [done..|constructor].
  - destruct (IH Hne) as (c & cn & Hc & Hcp & Hcd).
    exists c, cn. repeat split; [done..|]. by eapply ancestor_up.
Qed.

Lemma siblings_disjoint i c1 cn1 c2 cn2 j :
  h !! c1 = Some cn1 → parent cn1 = Some i →
  h !! c2 = Some cn2 → parent cn2 = Some i →
  ancestor h c1 j → ancestor h c2 j → c1 = c2.
Proof.
  intros Hc1 Hp1 Hc2 Hp2 Ha1 Ha2.
  destruct (linked_parent h Hlinked c1 cn1 i Hc1 Hp1) as [Hlt1 _].
  destruct (linked_parent h Hlinked c2 cn2 i Hc2 Hp2) as [Hlt2 _].
  destruct (ancestor_comparable _ _ _ Ha1 Ha2) as [H12|H21].
  - inversion H12 as [|d nd p Hd Hp Hup]; subst; [done|].
    assert (p = i) as -> by congruence.
    apply ancestor_le in Hup. lia.
  - inversion H21 as [|d nd p Hd Hp Hup]; subst; [done|].
    assert (p = i) as -> by congruence.
    apply ancestor_le in Hup. lia.
Qed.

Lemma foldl_dfs_None fuel cs :
  foldl (λ acc child, all ← acc; dfs fuel h child all) None cs = None.
Proof. induction cs as [|c cs IH]; [done|]. exact IH. Qed.

Lemma dfs_children fuel cs Ls acc :
  Forall2 (λ c L, ∀ acc, dfs fuel h c acc = Some (acc ++ L)) cs Ls →
  foldl (λ acc child, all ← acc; dfs fuel h child all) (Some acc) cs
  = Some (acc ++ concat Ls).
Proof.
  intros HF. revert acc.
  induction HF as [|c L cs Ls Hc _ IH]; intros acc; simpl.
  - by rewrite app_nil_r.
  - rewrite Hc, IH. by rewrite <- app_assoc.
Qed.

Lemma dfs_mono fuel fuel' i acc res :
  (fuel ≤ fuel')%nat →
  dfs fuel h i acc = Some res → dfs fuel' h i acc = Some res.
Proof.
  revert fuel' i acc res.
  induction fuel as [|fuel IH]; intros fuel' i acc res Hf Hdfs; [done|].
  destruct fuel' as [|fuel']; [lia|]. simpl in *.
  destruct (h !! i) as [nd|]; [|done].
  revert Hdfs. generalize (acc ++ [i]). generalize (children nd).
  intros cs. induction cs as [|c cs IHcs]; intros a Hfold; [done|].
  simpl in *. destruct (dfs fuel h c a) as [a1|] eqn:Hc;
    [|by rewrite foldl_dfs_None in Hfold].
  rewrite (IH fuel' c a a1) by (done || lia). by apply IHcs.
Qed.

Lemma foldl_dfs_elem fuel cs a res c :
  foldl (λ acc child, all ← acc; dfs fuel h child all) (Some a) cs = Some res →
  c ∈ cs → ∃ a1 a2, dfs fuel h c a1 = Some a2.
Proof.
  revert a. induction cs as [|c' cs IH]; intros a Hfold Hc;
    [by apply elem_of_nil in Hc|].
  simpl in Hfold. destruct (dfs fuel h c' a) as [a'|] eqn:Hc';
    [|by rewrite foldl_dfs_None in Hfold].
  apply elem_of_cons in Hc as [->|Hc]; [eauto|]. by eapply IH.
Qed.

(** A collection that gets through has used a nested call for every level
    below the node it started from. *)
Lemma dfs_depth fuel i nd acc res j ndj :
  h !! i = Some nd → dfs fuel h i acc = Some res →
  ancestor h i j → h !! j = Some ndj →
  level ndj - level nd < Z.of_nat fuel.
Proof.
  revert i nd acc res.
  induction fuel as [|fuel IH]; intros i nd acc res Hi Hdfs Hanc Hj; [done|].
  simpl in Hdfs. rewrite Hi in Hdfs.
  destruct (decide (j = i)) as [->|Hne].
  - assert (ndj = nd) as -> by congruence. lia.
  - destruct (ancestor_descend _ _ Hanc Hne) as (c & cn & Hcn & Hcp & Hcj).
    destruct (linked_parent h Hlinked c cn i Hcn Hcp)
      as [_ (pn & Hpn & Hin)].
    assert (pn = nd) as -> by congruence.
    destruct (foldl_dfs_elem _ _ _ _ c Hdfs Hin) as (a1 & a2 & Hc).
    pose proof (IH c cn a1 a2 Hcn Hc Hcj Hj).
    pose proof (Hlevel c cn i nd Hcn Hcp Hi). lia.
Qed.

Lemma concat_children d i cs Ls :
  Forall2 (subtree_order h d) cs Ls → NoDup cs →
  (∀ c, c ∈ cs → ∃ cn, h !! c = Some cn ∧ parent cn = Some i) →
  NoDup (concat Ls) ∧
  (∀ j, j ∈ concat Ls ↔ ∃ c, c ∈ cs ∧ ancestor h c j) ∧
  (∀ j, j ∈ concat Ls →
     ∃ c L pre post, c ∈ cs ∧ subtree_order h d c L ∧ j ∈ L ∧
                     concat Ls = pre ++ L ++ post).
Proof.
  induction 1 as [|c L cs Ls Hc _ IH]; intros Hnd Hpar; simpl.
  - split; [constructor|]. split.
    + intros j. split; [by intros ?%elem_of_nil|].
      intros (c & Hc & _). by apply elem_of_nil in Hc.
    + intros j Hj. by apply elem_of_nil in Hj.
  - apply NoDup_cons in Hnd as [Hc_notin Hnd].
    destruct IH as (IHnd & IHel & IHdec); [done| |].
    { intros c' Hc'. apply Hpar. by right. }
    split; [|split].
    + apply NoDup_app. split; [apply (order_NoDup _ _ _ _ Hc)|].
      split; [|done]. intros j Hj Hj'.
      apply (order_elem _ _ _ _ Hc) in Hj.
      apply IHel in Hj' as (c' & Hc' & Hanc').
      destruct (Hpar c ltac:(by left)) as (cn & Hcn & Hcp).
      destruct (Hpar c' ltac:(by right)) as (cn' & Hcn' & Hcp').
      assert (c = c') as -> by (by eapply siblings_disjoint).
      done.
    + intros j. rewrite elem_of_app, (order_elem _ _ _ _ Hc), IHel. split.
      * intros [Hj|(c' & Hc' & Hj)].
        -- exists c. split; [by left|done].
        -- exists c'. split; [by right|done].
      * intros (c' & [->|Hc']%elem_of_cons & Hj); [by left|right; eauto].
    + intros j [Hj|Hj]%elem_of_app.
      * exists c, L, [], (concat Ls).
        split; [by left|]. split; [done|]. split; done.
      * destruct (IHdec j Hj) as (c' & L' & pre & post & ? & ? & ? & ->).
        exists c', L', (L ++ pre), post.
        split; [by right|]. split; [done|]. split; [done|].
        by rewrite <- !app_assoc.
Qed.

Lemma Forall2_exists {A B} (Q : A → B → Prop) (xs : list A) :
  (∀ x, x ∈ xs → ∃ y, Q x y) → ∃ ys, Forall2 Q xs ys.
Proof.
  induction xs as [|x xs IH]; intros HQ; [by exists []|].
  destruct (HQ x ltac:(by left)) as [y Hy].
  destruct IH as [ys Hys]; [intros x' Hx'; apply HQ; by right|].
  exists (y :: ys). by constructor.
Qed.

Lemma subtree_order_node d i nd Ls :
  h !! i = Some nd → Forall2 (subtree_order h d) (children nd) Ls →
  subtree_order h (S d) i (i :: concat Ls).
Proof.
  intros Hnd HLs.
  assert (∀ c, c ∈ children nd →
            ∃ cn, h !! c = Some cn ∧ parent cn = Some i ∧ (i < c)%nat)
    as Hkids.
  { intros c Hc.
    destruct (linked_children h Hlinked i nd c Hnd Hc) as (cn & Hcn & Hcp).
    destruct (linked_parent h Hlinked c cn i Hcn Hcp) as [Hlt _]. eauto. }
  destruct (concat_children d i _ _ HLs) as (Hnodup & Helem & Hdec).
  { by eapply linked_NoDup. }
  { intros c (cn & ? & ? & _)%Hkids. eauto. }
  assert (∀ j, j ∈ concat Ls → (i < j)%nat) as Hbelow.
  { intros j (c & Hc & Hanc)%Helem.
    destruct (Hkids c Hc) as (_ & _ & _ & Hlt).
    apply ancestor_le in Hanc. lia. }
  split.
  - intros [|fuel] acc Hf; [lia|]. simpl. rewrite Hnd.
    rewrite (dfs_children fuel _ Ls); [by rewrite <- app_assoc|].
    eapply Forall2_impl; [exact HLs|]. intros c L Hc acc'.
    apply (order_dfs _ _ _ _ Hc). lia.
  - done.
  - apply NoDup_cons. split; [|done]. intros Hin%Hbelow. lia.
  - intros j. rewrite elem_of_cons, Helem. split.
    + intros [->|(c & Hc & Hanc)]; [constructor|].
      destruct (Hkids c Hc) as (cn & Hcn & Hcp & _).
      by eapply ancestor_below_child.
    + intros Hanc. destruct (decide (j = i)) as [->|Hne]; [by left|right].
      destruct (ancestor_descend _ _ Hanc Hne) as (c & cn & Hcn & Hcp & Hcj).
      exists c. split; [|done].
      by destruct (linked_parent h Hlinked c cn i Hcn Hcp)
        as [_ (pn & Hpn & Hin)]; assert (pn = nd) as -> by congruence.
  - intros j ndj p [->|Hj]%elem_of_cons Hne Hndj Hp; [done|].
    destruct (Hdec j Hj) as (c & L & pre & post & Hc & HL & HjL & Hcat).
    rewrite Hcat. destruct (decide (j = c)) as [->|Hjc].
    + destruct (Hkids c Hc) as (cn & Hcn & Hcp & _).
      assert (p = i) as -> by congruence.
      destruct (head_Some L c) as [[L' ->] _];
        [apply (order_head _ _ _ _ HL)|].
      exists [], pre, (L' ++ post). simpl. by rewrite <- ?app_assoc.
    + destruct (order_before _ _ _ _ HL j ndj p HjL Hjc Hndj Hp)
        as (l1 & l2 & l3 & ->).
      exists (i :: pre ++ l1), l2, (l3 ++ post). simpl.
      by rewrite <- ?app_assoc; simpl; rewrite <- ?app_assoc.
Qed.

(** The subtree of a node that is [n] levels below [top] is collected
    within [n + 1] nested calls. *)
Lemma subtree_order_exists n i nd :
  h !! i = Some nd → (Z.to_nat (top - level nd) ≤ n)%nat →
  ∃ l, subtree_order h (S n) i l.
Proof.
  revert i nd. induction n as [|n IH]; intros i nd Hnd Hn.
  - exists (i :: concat []). apply (subtree_order_node 0 i nd); [done|].
    destruct (children nd) as [|c cs] eqn:Hch; [constructor|]. exfalso.
    destruct (linked_children h Hlinked i nd c Hnd) as (cn & Hcn & Hcp);
      [rewrite Hch; by left|].
    pose proof (Hlevel c cn i nd Hcn Hcp Hnd).
    pose proof (Htop c cn Hcn). pose proof (Htop i nd Hnd). lia.
  - destruct (Forall2_exists (subtree_order h (S n)) (children nd))
      as [Ls HLs].
    { intros c Hc.
      destruct (linked_children h Hlinked i nd c Hnd Hc) as (cn & Hcn & Hcp).
      pose proof (Hlevel c cn i nd Hcn Hcp Hnd).
      apply (IH c cn Hcn). lia. }
    exists (i :: concat Ls). by apply (subtree_order_node (S n) i nd).
Qed.

(** On a linked store whose only node without parent is the root, at level
    0, the collection visits every object once, and after its parent, if
    more nested calls are allowed than the highest level. *)
Lemma collect_all_theorems_linked limit rt :
  h !! 0%nat = Some rt → level rt = 0 →
  (Z.to_nat top < limit)%nat →
  (∀ j nd, h !! j = Some nd → parent nd = None → j = 0%nat) →
  ∃ l, collect_all_theorems limit h 0 = Some l ∧
       head l = Some 0%nat ∧ l ≡ₚ seq 0 (length h) ∧
       ∀ j nd p, h !! j = Some nd → parent nd = Some p → before l p j.
Proof.
  intros Hrt Hrt_l Hlimit Hroot.
  destruct (subtree_order_exists (Z.to_nat top) 0 rt) as [l Hl];
    [done|lia|].
  assert (∀ j, (j < length h)%nat → ancestor h 0 j) as Hall.
  { intros j. induction (lt_wf j) as [j _ IH]. intros Hj.
    destruct (lookup_lt_is_Some_2 _ _ Hj) as [nd Hnd].
    destruct (parent nd) as [p|] eqn:Hp.
    - destruct (linked_parent h Hlinked j nd p Hnd Hp) as [Hlt _].
      eapply ancestor_up; [done..|]. apply IH; lia.
    - rewrite (Hroot j nd Hnd Hp). constructor. }
  assert (∀ j, j ∈ l ↔ (j < length h)%nat) as Hmem.
  { intros j. rewrite (order_elem _ _ _ _ Hl). split; [|apply Hall].
    intros Hanc. apply lookup_lt_Some in Hrt. clear -Hanc Hrt.
    induction Hanc as [|d nd p Hd _ _ _]; [done|]. by eapply lookup_lt_Some. }
  exists l. split; [|split; [|split]].
  - unfold collect_all_theorems.
    by rewrite (order_dfs _ _ _ _ Hl limit []) by lia.
  - apply (order_head _ _ _ _ Hl).
  - apply NoDup_Permutation; [apply (order_NoDup _ _ _ _ Hl)|apply NoDup_seq|].
    intros j. rewrite Hmem, elem_of_seq. lia.
  - intros j nd p Hj Hp.
    destruct (linked_parent h Hlinked j nd p Hj Hp) as [Hlt _].
    eapply (order_before _ _ _ _ Hl); [|lia|done..].
    apply Hmem. by eapply lookup_lt_Some.
Qed.

End Dfs.

(** ** The printed tree follows the collection *)

Section PrintTree.
Context (h : store) (Hlinked : linked h).
Hypothesis Hlevel : ∀ c cn p pn,
  h !! c = Some cn → parent cn = Some p → h !! p = Some pn →
  level cn = level pn + 1.

Let shown (j : ref) (line : string) : Prop :=
  ∃ nd, h !! j = Some nd ∧ line = tree_line (level nd) nd.

Lemma foldl_print_None fuel indent cs :
  foldl (λ acc child,
           out ← acc; print_tree_structure fuel h child indent out)
        None cs = None.
Proof. induction cs as [|c cs IH]; [done|]. exact IH. Qed.

Lemma print_follows_dfs fuel i nd acc acc' :
  h !! i = Some nd → dfs fuel h i acc = Some acc' →
  ∃ l lines, acc' = acc ++ l ∧ Forall2 shown l lines ∧
    ∀ out, print_tree_structure fuel h i (level nd) out = Some (out ++ lines).
Proof.
  revert i nd acc acc'.
  induction fuel as [|fuel IH]; intros i nd acc acc' Hi Hdfs; [done|].
  simpl in Hdfs. rewrite Hi in Hdfs.
  assert (∀ cs a a',
    (∀ c, c ∈ cs → c ∈ children nd) →
    foldl (λ acc child, all ← acc; dfs fuel h child all) (Some a) cs
      = Some a' →
    ∃ l lines, a' = a ++ l ∧ Forall2 shown l lines ∧
      ∀ out,
        foldl (λ acc child,
                 out ← acc;
                 print_tree_structure fuel h child (level nd + 1) out)
              (Some out) cs = Some (out ++ lines)) as Hkids.
  { induction cs as [|c cs IHcs]; intros a a' Hsub Hfold.
    - simpl in Hfold. inversion Hfold; subst. exists [], [].
      split; [by rewrite app_nil_r|]. split; [constructor|].
      intros out. simpl. by rewrite app_nil_r.
    - simpl in Hfold.
      destruct (dfs fuel h c a) as [a1|] eqn:Hc;
        [|by rewrite foldl_dfs_None in Hfold].
      destruct (linked_children h Hlinked i nd c Hi (Hsub c ltac:(by left)))
        as (cn & Hcn & Hcp).
      destruct (IH c cn a a1 Hcn Hc) as (l1 & lines1 & -> & HF1 & Hp1).
      destruct (IHcs (a ++ l1) a') as (l2 & lines2 & -> & HF2 & Hp2);
        [intros c' Hc'; apply Hsub; by right|done|].
      exists (l1 ++ l2), (lines1 ++ lines2).
      split; [by rewrite app_assoc|]. split; [by apply Forall2_app|].
      intros out. simpl.
      rewrite (Hlevel c cn i nd Hcn Hcp Hi) in Hp1. rewrite Hp1, Hp2.
      by rewrite app_assoc. }
  destruct (Hkids (children nd) (acc ++ [i]) acc') as (l & lines & -> & HF & Hp);
    [done|done|].
  exists (i :: l), (tree_line (level nd) nd :: lines).
  split; [by rewrite <- app_assoc|]. split.
  - constructor; [by exists nd|done].
  - intros out. simpl. rewrite Hi, Hp. by rewrite <- app_assoc.
Qed.

End PrintTree.

(** ** Grouping by level *)

Section ByLevel.
Implicit Types (h : store) (m : gmap Z (list string)) (l : list ref).

Lemma by_level_add_lookup m nd lvl :
  by_level_add m nd !! lvl =
    if decide (lvl = level nd)
    then Some (default [] (m !! lvl) ++ [theorem nd])
    else m !! lvl.
Proof.
  unfold by_level_add. case_decide as Hl.
  - subst lvl. rewrite lookup_alter_eq.
    destruct (m !! level nd) as [b|] eqn:Hm; [by rewrite Hm|].
    by rewrite lookup_insert_eq.
  - rewrite lookup_alter_ne by done.
    destruct (m !! level nd); [done|]. by rewrite lookup_insert_ne.
Qed.

Lemma group_by_level_lookup h l lvl :
  group_by_level h l !! lvl =
    let ts := theorem <$> filter (λ nd, level nd = lvl) (omap (h !!.) l) in
    if decide (ts = []) then None else Some ts.
Proof.
  unfold group_by_level. induction l as [|i l IH] using rev_ind; [done|].
  rewrite foldl_snoc, omap_app, filter_app, fmap_app. cbn zeta in *.
  simpl. destruct (h !! i) as [nd|] eqn:Hi; simpl.
  - rewrite by_level_add_lookup, IH. rewrite filter_cons, filter_nil.
    destruct (decide (lvl = level nd)) as [->|Hne].
    + rewrite (decide_True (P := level nd = level nd)) by done. simpl.
      rewrite (decide_False (P := _ ++ _ = [])) by (by intros [? ?]%app_eq_nil).
      f_equal. f_equal. by case_decide as Hts; [rewrite Hts|].
    + rewrite (decide_False (P := level nd = lvl)) by done. simpl.
      by rewrite app_nil_r.
  - by rewrite ?filter_nil, ?app_nil_r.
Qed.

Lemma fmap_fst_tagged {A B} (f : A → B) (ks : list A) :
  ((λ k, (k, f k)) <$> ks).*1 = ks.
Proof. induction ks as [|k ks IH]; simpl; [done|by f_equal]. Qed.

Lemma StronglySorted_le_lt (ks : list Z) :
  StronglySorted Z.le ks → NoDup ks → StronglySorted Z.lt ks.
Proof.
  induction 1 as [|k ks _ IH Hall]; [constructor|].
  intros [Hk Hnd]%NoDup_cons. constructor; [by apply IH|].
  apply Forall_forall. intros k' Hk'.
  rewrite Forall_forall in Hall. specialize (Hall k' Hk').
  assert (k ≠ k') by (intros ->; done). lia.
Qed.

(** What [print_theorems_by_level] prints, given the collection [l]: the
    levels in strictly ascending order, and for every level that occurs the
    theorems of its nodes in collection order. *)
Lemma print_theorems_by_level_spec limit h r l :
  collect_all_theorems limit h r = Some l →
  ∃ lines,
    print_theorems_by_level limit h r = Some lines ∧
    StronglySorted Z.lt (lines.*1) ∧
    ∀ lvl ts, (lvl, ts) ∈ lines ↔
      ts ≠ [] ∧
      ts = theorem <$> filter (λ nd, level nd = lvl) (omap (h !!.) l).
Proof.
  intros Hl. unfold print_theorems_by_level. rewrite Hl. simpl.
  set (m := group_by_level h l).
  set (ks := merge_sort Z.le (elements (dom m))).
  eexists. split; [done|].
  assert (ks ≡ₚ elements (dom m)) as Hperm by apply merge_sort_Permutation.
  split.
  - rewrite fmap_fst_tagged. apply StronglySorted_le_lt.
    + apply StronglySorted_merge_sort; apply _.
    + rewrite Hperm. apply NoDup_elements.
  - intros lvl ts. rewrite list_elem_of_fmap.
    assert (∀ k, k ∈ ks ↔ is_Some (m !! k)) as Hks.
    { intros k. by rewrite Hperm, elem_of_elements, elem_of_dom. }
    pose proof (group_by_level_lookup h l lvl) as Hlk. fold m in Hlk.
    cbn zeta in Hlk. split.
    + intros (k & [= -> ->] & Hk). apply Hks in Hk as [b Hb].
      rewrite Hb in Hlk |- *. simpl. case_decide; [done|].
      split; congruence.
    + intros [Hne ->]. exists lvl. rewrite decide_False in Hlk by done.
      split; [by rewrite Hlk|]. apply Hks. by rewrite Hlk.
Qed.

End ByLevel.

(** ** The reporting utilities on the returned tree *)

Section Reports.
Implicit Types (axiom : string) (rules : list rule) (t : tree).

Lemma final_linked axiom rules max_level :
  linked (heap (final_state axiom rules max_level)).
Proof.
  pose proof (core_final rules axiom max_level) as Hcore. split.
  - intros j nd p Hj Hp.
    assert (j ≠ 0%nat) as Hj0.
    { intros ->. destruct (core_root _ _ _ _ Hcore) as (rt & ? & _ & _ & ?).
      congruence. }
    destruct (core_parent _ _ _ _ Hcore j nd Hj Hj0)
      as (p' & pn & Hp' & Hlt & Hpn & _ & Hin).
    assert (p' = p) as -> by congruence. eauto.
  - apply (core_children _ _ _ _ Hcore).
  - apply final_children_NoDup.
Qed.

Lemma final_orphan_root axiom rules max_level j nd :
  heap (final_state axiom rules max_level) !! j = Some nd →
  parent nd = None → j = 0%nat.
Proof.
  intros Hj Hp. destruct (decide (j = 0%nat)) as [|Hne]; [done|].
  destruct (core_parent _ _ _ _ (core_final rules axiom max_level) j nd Hj Hne)
    as (p & _ & Hp' & _). congruence.
Qed.

Lemma final_child_level axiom rules max_level c cn p pn :
  heap (final_state axiom rules max_level) !! c = Some cn →
  parent cn = Some p →
  heap (final_state axiom rules max_level) !! p = Some pn →
  level cn = level pn + 1.
Proof.
  intros Hc Hp Hpn.
  pose proof (core_final rules axiom max_level) as Hcore.
  assert (c ≠ 0%nat) as Hc0.
  { intros ->. destruct (core_root _ _ _ _ Hcore) as (rt & ? & _ & _ & ?).
    congruence. }
  destruct (core_parent _ _ _ _ Hcore c cn Hc Hc0)
    as (p' & pn' & Hp' & _ & Hpn' & Hl & _).
  congruence.
Qed.

Lemma final_collect axiom rules max_level limit :
  (Z.to_nat max_level < limit)%nat →
  let h := heap (final_state axiom rules max_level) in
  ∃ l, collect_all_theorems limit h 0 = Some l ∧
       head l = Some 0%nat ∧ NoDup l ∧
       (∀ i, i ∈ l ↔ (i < length h)%nat) ∧
       ∀ j nd p, h !! j = Some nd → parent nd = Some p → before l p j.
Proof.
  intros Hlimit h.
  pose proof (core_final rules axiom max_level) as Hcore.
  destruct (core_root _ _ _ _ Hcore) as (rt & Hrt & _ & Hrt_l & _).
  destruct (collect_all_theorems_linked h (final_linked _ _ _)
              (Z.max 0 max_level) (final_child_level _ _ _)
              (λ i nd Hi, proj2 (core_depth _ _ _ _ Hcore i nd Hi))
              limit rt Hrt Hrt_l)
    as (l & Hl & Hhead & Hperm & Hbefore).
  - lia.
  - apply final_orphan_root.
  - exists l. split; [done|]. split; [done|]. split; [|split; [|done]].
    + rewrite Hperm. apply NoDup_seq.
    + intros i. rewrite Hperm, elem_of_seq. lia.
Qed.

Lemma final_in_tree axiom rules max_level i :
  in_tree (mkTree (heap (final_state axiom rules max_level)) 0%nat) i
  ↔ (i < length (heap (final_state axiom rules max_level)))%nat.
Proof.
  split.
  - intros Hi. apply lookup_lt_is_Some.
    eapply in_tree_core; [apply core_final|done].
  - apply core_in_tree with (rules := rules) (axiom := axiom)
                            (max_level := max_level), core_final.
Qed.

(** X14. When the interpreter allows more nested calls than [max_level],
    [collect_all_theorems] on the returned tree raises nothing and gives the
    root first and then every node of the tree, each exactly once. *)
Theorem generate_collect_all axiom rules (max_level : Z) limit t :
  generate_theorem_tree_optimized axiom rules (Some max_level) = Returned t →
  (Z.to_nat max_level < limit)%nat →
  ∃ l, collect_all_theorems limit (nodes t) (root t) = Some l ∧
       head l = Some (root t) ∧ NoDup l ∧ ∀ i, i ∈ l ↔ in_tree t i.
Proof.
  intros ->%generate_returned Hlimit. simpl.
  destruct (final_collect axiom rules max_level limit Hlimit)
    as (l & Hl & Hhead & Hnd & Hmem & _).
  exists l. repeat split; try done.
  - intros Hi. apply final_in_tree. by apply Hmem.
  - intros Hi. apply Hmem. by apply final_in_tree.
Qed.

Lemma generate_collect_all_witness :
  ∃ t l, generate_theorem_tree_optimized "MI" RULES (Some 2) = Returned t ∧
         collect_all_theorems 3 (nodes t) (root t) = Some l ∧
         head l = Some (root t) ∧ NoDup l ∧ ∀ i, i ∈ l ↔ in_tree t i.
Proof.
  eexists.
  destruct (generate_collect_all "MI" RULES 2 3 _ eq_refl ltac:(simpl; lia))
    as [l Hl].
  exists l. split; [reflexivity|exact Hl].
Defined.

(** X15. Whenever [collect_all_theorems] gets through on the returned tree,
    every node comes after its parent in the collection. *)
Theorem generate_collect_parent_first axiom rules max_level limit t l j nd p :
  generate_theorem_tree_optimized axiom rules max_level = Returned t →
  collect_all_theorems limit (nodes t) (root t) = Some l →
  in_tree t j → nodes t !! j = Some nd → parent nd = Some p →
  before l p j.
Proof.
  intros ->%generate_returned Hl _ Hj Hp. simpl in *.
  set (m := default max_level_default max_level) in *.
  destruct (final_collect axiom rules m (S (Z.to_nat m + limit)))
    as (l' & Hl' & _ & _ & _ & Hbefore); [lia|].
  assert (l' = l) as ->; [|by eapply Hbefore].
  unfold collect_all_theorems in *.
  apply (dfs_mono _ limit (S (Z.to_nat m + limit))) in Hl; [|lia].
  congruence.
Qed.

Lemma generate_collect_parent_first_witness :
  ∃ t, generate_theorem_tree_optimized "MI" RULES (Some 2) = Returned t ∧
       collect_all_theorems 5 (nodes t) (root t)
       = Some [0; 1; 3; 2; 4; 5]%nat ∧
       before [0; 1; 3; 2; 4; 5]%nat 2%nat 5%nat.
Proof.
  eexists. split; [reflexivity|]. split; [vm_compute; reflexivity|].
  eapply (generate_collect_parent_first "MI" RULES (Some 2) 5 _ _ 5%nat
            (mkNode "MIIII" 2 (Some 2%nat) []) 2%nat).
  - reflexivity.
  - vm_compute. reflexivity.
  - apply (in_tree_child _ 2%nat (mkNode "MII" 1 (Some 0%nat) [4%nat; 5%nat]));
      [|vm_compute; reflexivity|apply list_elem_of_In; simpl; tauto].
    apply (in_tree_child _ 0%nat (mkNode "MI" 0 None [1%nat; 2%nat]));
      [apply (in_tree_root (mkTree _ _))|vm_compute; reflexivity|].
    apply list_elem_of_In. simpl. tauto.
  - vm_compute. reflexivity.
  - reflexivity.
Defined.

(** X16. When the interpreter allows more nested calls than [max_level],
    [print_tree_structure] on the returned tree raises nothing and prints
    one line per node, in the order of [collect_all_theorems], and the
    indentation of a line is the level of its node. *)
Theorem generate_print_tree_structure axiom rules (max_level : Z) limit t :
  generate_theorem_tree_optimized axiom rules (Some max_level) = Returned t →
  (Z.to_nat max_level < limit)%nat →
  ∃ l lines,
    collect_all_theorems limit (nodes t) (root t) = Some l ∧
    print_tree_structure limit (nodes t) (root t) 0 [] = Some lines ∧
    Forall2 (λ j line, ∃ nd, nodes t !! j = Some nd ∧
                             line = tree_line (level nd) nd) l lines.
Proof.
  intros ->%generate_returned Hlimit. simpl.
  set (h := heap (final_state axiom rules max_level)).
  destruct (final_collect axiom rules max_level limit Hlimit) as (l & Hl & _).
  fold h in Hl.
  destruct (core_root _ _ _ _ (core_final rules axiom max_level))
    as (rt & Hrt & _ & Hlvl & _). fold h in Hrt.
  destruct (print_follows_dfs h (final_linked _ _ _)
              (final_child_level _ _ _) limit 0%nat rt [] l Hrt Hl)
    as (l' & lines & Heq & HF & Hprint).
  simpl in Heq. subst l'. exists l, lines. split; [done|].
  split; [|done]. rewrite <- Hlvl. apply (Hprint []).
Qed.

Lemma generate_print_tree_structure_witness :
  ∃ t l lines,
    generate_theorem_tree_optimized "MI" RULES (Some 1) = Returned t ∧
    collect_all_theorems 2 (nodes t) (root t) = Some l ∧
    print_tree_structure 2 (nodes t) (root t) 0 [] = Some lines ∧
    Forall2 (λ j line, ∃ nd, nodes t !! j = Some nd ∧
                             line = tree_line (level nd) nd) l lines.
Proof.
  eexists.
  destruct (generate_print_tree_structure "MI" RULES 1 2 _ eq_refl
              ltac:(simpl; lia)) as (l & lines & H).
  exists l, lines. split; [reflexivity|exact H].
Defined.

(** X17. When the interpreter allows more nested calls than [max_level],
    [print_theorems_by_level] on the returned tree raises nothing, prints
    the levels in strictly ascending order, no line is empty, and a theorem
    stands on the line of a level exactly when a node of the tree holds it
    at that level. *)
Theorem generate_print_by_level axiom rules (max_level : Z) limit t :
  generate_theorem_tree_optimized axiom rules (Some max_level) = Returned t →
  (Z.to_nat max_level < limit)%nat →
  ∃ lines,
    print_theorems_by_level limit (nodes t) (root t) = Some lines ∧
    StronglySorted Z.lt (lines.*1) ∧
    (∀ lvl ts, (lvl, ts) ∈ lines → ts ≠ []) ∧
    ∀ s lvl, (∃ ts, (lvl, ts) ∈ lines ∧ s ∈ ts) ↔
             ∃ i nd, in_tree t i ∧ nodes t !! i = Some nd ∧
                     theorem nd = s ∧ level nd = lvl.
Proof.
  intros ->%generate_returned Hlimit. simpl.
  set (h := heap (final_state axiom rules max_level)).
  destruct (final_collect axiom rules max_level limit Hlimit)
    as (l & Hl & _ & _ & Hmem & _).
  fold h in Hl, Hmem.
  destruct (print_theorems_by_level_spec limit h 0%nat l Hl)
    as (lines & Hprint & Hsorted & Hlines).
  exists lines. split; [done|]. split; [done|]. split.
  - intros lvl ts Hin. by apply Hlines in Hin as [? _].
  - assert (∀ s lvl,
      s ∈ theorem <$> filter (λ nd, level nd = lvl) (omap (h !!.) l) ↔
      ∃ i nd, in_tree (mkTree h 0%nat) i ∧ h !! i = Some nd ∧
              theorem nd = s ∧ level nd = lvl) as Hbucket.
    { intros s lvl. rewrite list_elem_of_fmap. split.
      - intros (nd & -> & [Hlv (i & Hi & Hnd)%list_elem_of_omap]%list_elem_of_filter).
        exists i, nd. split; [|done]. apply final_in_tree. by apply Hmem.
      - intros (i & nd & Hi & Hnd & <- & <-). exists nd. split; [done|].
        apply list_elem_of_filter. split; [done|].
        apply list_elem_of_omap. exists i. split; [|done].
        apply Hmem. by eapply lookup_lt_Some. }
    intros s lvl. rewrite <- Hbucket. split.
    + intros (ts & [_ ->]%Hlines & Hs). done.
    + intros Hs. eexists. split; [|exact Hs]. apply Hlines.
      split; [|done]. intros Hnil. rewrite Hnil in Hs.
      by apply elem_of_nil in Hs.
Qed.

Lemma generate_print_by_level_witness :
  ∃ t lines,
    generate_theorem_tree_optimized "MI" RULES (Some 2) = Returned t ∧
    print_theorems_by_level 3 (nodes t) (root t) = Some lines ∧
    StronglySorted Z.lt (lines.*1) ∧
    (∀ lvl ts, (lvl, ts) ∈ lines → ts ≠ []) ∧
    ∀ s lvl, (∃ ts, (lvl, ts) ∈ lines ∧ s ∈ ts) ↔
             ∃ i nd, in_tree t i ∧ nodes t !! i = Some nd ∧
                     theorem nd = s ∧ level nd = lvl.
Proof.
  eexists.
  destruct (generate_print_by_level "MI" RULES 2 3 _ eq_refl
              ltac:(simpl; lia)) as (lines & H).
  exists lines. split; [reflexivity|exact H].
Defined.

(** X18. Whenever [print_theorems_by_level] gets through, on any store, its
    lines are the levels of the collected nodes in strictly ascending order,
    and the line of a level lists the theorems of the nodes of that level in
    the order in which [collect_all_theorems] visits them. *)
Theorem print_theorems_by_level_lines limit (h : store) (r : ref) l lines :
  collect_all_theorems limit h r = Some l →
  print_theorems_by_level limit h r = Some lines →
  StronglySorted Z.lt (lines.*1) ∧
  ∀ lvl ts, (lvl, ts) ∈ lines ↔
    ts ≠ [] ∧
    ts = theorem <$> filter (λ nd, level nd = lvl) (omap (h !!.) l).
Proof.
  intros Hl Hprint.
  destruct (print_theorems_by_level_spec _ _ _ _ Hl)
    as (lines' & Hprint' & Hsorted & Hlines).
  assert (lines' = lines) as -> by congruence. done.
Qed.

Lemma print_theorems_by_level_lines_witness :
  StronglySorted Z.lt [0; 2] ∧
  ∀ lvl ts, (lvl, ts) ∈ [(0, ["a"; "c"]); (2, ["b"])] ↔
    ts ≠ [] ∧
    ts = theorem <$> filter (λ nd, level nd = lvl)
           (omap ([mkNode "a" 0 None [1; 2]%nat; mkNode "b" 2 (Some 0%nat) [];
                   mkNode "c" 0 (Some 0%nat) []] !!.) [0; 1; 2]%nat).
Proof.
  apply (print_theorems_by_level_lines 2
           [mkNode "a" 0 None [1; 2]%nat; mkNode "b" 2 (Some 0%nat) [];
            mkNode "c" 0 (Some 0%nat) []] 0%nat [0; 1; 2]%nat
           [(0, ["a"; "c"]); (2, ["b"])]).
  - vm_compute. reflexivity.
  - vm_compute. reflexivity.
Defined.

(** X20. When a node of the returned tree is at a level that is not below
    the number of nested calls the interpreter allows,
    [collect_all_theorems] does not get through: it ends in
    [RecursionError]. *)
Theorem generate_collect_too_deep axiom rules max_level limit t j nd :
  generate_theorem_tree_optimized axiom rules max_level = Returned t →
  in_tree t j → nodes t !! j = Some nd →
  Z.of_nat limit ≤ level nd →
  collect_all_theorems limit (nodes t) (root t) = None.
Proof.
  intros ->%generate_returned _ Hj Hdeep. simpl in *.
  set (m := default max_level_default max_level) in *.
  pose proof (core_final rules axiom m) as Hcore.
  destruct (core_root _ _ _ _ Hcore) as (rt & Hrt & _ & Hrt_l & _).
  destruct (collect_all_theorems _ _ _) as [l|] eqn:Hl; [|done]. exfalso.
  unfold collect_all_theorems in Hl.
  assert (ancestor (heap (final_state axiom rules m)) 0 j) as Hanc.
  { apply lookup_lt_Some in Hj. revert Hj.
    induction (lt_wf j) as [j _ IH]. intros Hj.
    destruct (lookup_lt_is_Some_2 _ _ Hj) as [ndj Hndj].
    destruct (parent ndj) as [p|] eqn:Hp.
    - destruct (linked_parent _ (final_linked _ _ _) j ndj p Hndj Hp)
        as [Hlt _].
      eapply ancestor_up; [done..|]. apply IH; lia.
    - rewrite (final_orphan_root _ _ _ j ndj Hndj Hp). constructor. }
  pose proof (dfs_depth _ (final_linked _ _ _) (final_child_level _ _ _)
                limit 0%nat rt [] l j nd Hrt Hl Hanc Hj).
  lia.
Qed.

Lemma generate_collect_too_deep_witness :
  ∃ t, generate_theorem_tree_optimized "MI" RULES (Some 2) = Returned t ∧
       collect_all_theorems 2 (nodes t) (root t) = None.
Proof.
  eexists. split; [reflexivity|].
  eapply (generate_collect_too_deep "MI" RULES (Some 2) 2 _ 5%nat
            (mkNode "MIIII" 2 (Some 2%nat) [])).
  - reflexivity.
  - apply (in_tree_child _ 2%nat (mkNode "MII" 1 (Some 0%nat) [4%nat; 5%nat]));
      [|vm_compute; reflexivity|apply list_elem_of_In; simpl; tauto].
    apply (in_tree_child _ 0%nat (mkNode "MI" 0 None [1%nat; 2%nat]));
      [apply (in_tree_root (mkTree _ _))|vm_compute; reflexivity|].
    apply list_elem_of_In. simpl. tauto.
  - vm_compute. reflexivity.
  - simpl. lia.
Defined.

(** X19. The returned tree is the root alone exactly when the bound is not
    positive or no rule makes of the axiom a string other than the axiom. *)
Theorem generate_root_alone axiom rules (max_level : Z) t :
  generate_theorem_tree_optimized axiom rules (Some max_level) = Returned t →
  nodes t = [mkNode axiom 0 None []] ↔
  max_level ≤ 0 ∨ ∀ r s, r ∈ rules → r axiom = Some s → s = axiom.
Proof.
  intros ->%generate_returned. simpl.
  pose proof (core_final rules axiom max_level) as Hcore.
  pose proof (final_edges_derived rules axiom max_level) as Hedges.
  assert (∀ r s, 0 < max_level → r ∈ rules → r axiom = Some s →
            ∃ j nj, heap (final_state axiom rules max_level) !! j = Some nj ∧
                    theorem nj = s) as Hexp.
  { intros r s Hpos Hr Hrs.
    destruct (core_root _ _ _ _ Hcore) as (rt & Hrt & Hrt_t & Hrt_l & _).
    eapply (final_state_expanded axiom rules max_level 0%nat rt);
      [exact Hrt|lia|done|]. by rewrite Hrt_t. }
  revert Hcore Hedges Hexp.
  generalize (final_state axiom rules max_level). intros st Hcore Hedges Hexp.
  destruct (core_root _ _ _ _ Hcore) as (rt & Hrt & Hrt_t & Hrt_l & Hrt_p).
  split.
  - intros Hone. destruct (decide (max_level ≤ 0)) as [|Hpos]; [by left|].
    right. intros r s Hr Hrs.
    destruct (Hexp r s ltac:(lia) Hr Hrs) as (j & nj & Hj & Hs).
    rewrite Hone in Hj. destruct j as [|j]; [|done].
    simpl in Hj. inversion Hj; subst nj. done.
  - intros Hcond.
    assert (length (heap st) = 1%nat) as Hlen.
    { destruct (decide (length (heap st) = 1%nat)) as [|Hne]; [done|]. exfalso.
      pose proof (lookup_lt_Some _ _ _ Hrt) as Hlt.
      destruct (lookup_lt_is_Some_2 (heap st) 1%nat) as [n1 Hn1]; [lia|].
      destruct (core_parent _ _ _ _ Hcore 1%nat n1 Hn1 ltac:(done))
        as (p & pn & Hp & Hp1 & Hpn & Hl & _).
      assert (p = 0%nat) as -> by lia.
      assert (pn = rt) as -> by congruence.
      destruct Hcond as [Hm|Hsame].
      - pose proof (core_depth _ _ _ _ Hcore _ _ Hn1). lia.
      - destruct (Hedges 1%nat n1 0%nat rt Hn1 Hp Hrt) as (r & Hr & Hrs).
        rewrite Hrt_t in Hrs. apply Hsame in Hrs; [|done].
        assert (1%nat = 0%nat); [|done].
        eapply (core_uniq _ _ _ _ Hcore); [done..|congruence]. }
    destruct (heap st) as [|n0 [|n1 h']] eqn:Hh; simpl in Hlen; try done.
    simpl in Hrt. inversion Hrt; subst n0. f_equal.
    destruct rt as [thm lv par ch]. simpl in *. subst.
    f_equal. destruct ch as [|c ch]; [done|]. exfalso.
    destruct (core_children _ _ _ _ Hcore 0%nat
                (mkNode axiom 0 None (c :: ch)) c) as (cn & Hc & Hcp);
      [by rewrite Hh|by left|].
    rewrite Hh in Hc. destruct c as [|c]; [|done].
    simpl in Hc. inversion Hc; subst cn. done.
Qed.

Lemma generate_root_alone_witness :
  ∃ t, generate_theorem_tree_optimized "M" RULES (Some 3) = Returned t ∧
    (nodes t = [mkNode "M" 0 None []] ↔
     3 ≤ 0 ∨ ∀ r s, r ∈ RULES → r "M" = Some s → s = "M").
Proof.
  eexists. split; [reflexivity|].
  apply (generate_root_alone "M" RULES 3). reflexivity.
Defined.

End Reports.
